(** * cluster-lifecycle-manager: the cluster registry and the git config source

    A shallow embedding of [controller/cluster_list.go] and of the methods
    of [channel/git.go] that construct the config source, keep its mirror up
    to date and hand out and release its snapshots ([NewGit], [Update],
    [Get], [Delete] and what they call), and the properties of the
    scheduling core and of the config source stated over it.

    Conventions of the embedding.
    - A Go [map[string]*T] is a [gmap string T]; the pointer stored in the map
      is identified with its key, since every entry is allocated once, when
      its key is inserted, and is only reached through the map.
    - Go leaves the iteration order of [range] over a map unspecified.  Every
      loop over a map is a fold over an explicit list of the map's entries;
      the order of that list is a parameter, and the theorems hold for every
      order that is a permutation of the map's entries.
    - [time.Time] is the number of nanoseconds since the Unix epoch on one
      clock, a [Z]; [time.Now()] is an argument of the operation that reads
      the clock.
    - The mutex of [ClusterList] is held for the whole body of each method, so
      a concurrent history is a sequence of method calls. *)

From stdpp Require Import base gmap sets list strings.
From Stdlib Require Import ZArith Lia Ascii String DecimalString DecimalZ DecimalPos.

Local Open Scope Z_scope.

(** ** The [api] and [config] declarations used by the registry *)

Module api.

(** Modelled from the spec: the declaration of [api.ClusterStatus] is not
    among the sources; the spec gives [Status.CurrentVersion] and
    [Status.NextVersion] as strings. *)
Record ClusterStatus := mkClusterStatus {
  CurrentVersion : string;
  NextVersion : string
}.

(** Modelled from the spec: the declaration of [api.Cluster] is not among
    the sources; these are the fields the registry reads, all strings in the
    code that compares them. *)
Record Cluster := mkCluster {
  ID : string;
  InfrastructureAccount : string;
  LifecycleStatus : string;
  Status : ClusterStatus
}.

#[global] Instance ClusterStatus_eq_dec : EqDecision ClusterStatus.
Proof. solve_decision. Defined.

#[global] Instance Cluster_eq_dec : EqDecision Cluster.
Proof. solve_decision. Defined.

End api.

Module config.

(** Modelled from the spec: [config.IncludeExcludeFilter] is declared
    outside the sources; the registry only calls its method [Allowed], a
    predicate over infrastructure-account identifiers. *)
Record IncludeExcludeFilter := mkFilter {
  Allowed : string → bool
}.

End config.

(** ** controller/cluster_list.go *)

Module controller.
Import api config.

(** The two lifecycle-status constants are declared in a file of the
    package that is not among the sources; the registry is parametric in
    their values. *)
Class Statuses := mkStatuses {
  statusDecommissionRequested : string;
  statusDecommissioned : string
}.

(** [time.Time], in nanoseconds since the Unix epoch. *)
Definition Time := Z.

Definition time_Unix (sec nsec : Z) : Time := sec * 1000000000 + nsec.

Definition Before (t u : Time) : bool := t <? u.

(** The priorities, counted by [iota]; they are [uint32] in the code, which
    only compares them. *)
Definition updatePriorityNormal : Z := 0.
Definition updatePriorityDecommissionRequested : Z := 1.
Definition updatePriorityAlreadyUpdating : Z := 2.

Record clusterInfo := mkClusterInfo {
  lastProcessed : Time;
  processing : bool;
  cluster : Cluster
}.

Record ClusterList := mkClusterList {
  accountFilter : IncludeExcludeFilter;
  clusters : gmap string clusterInfo
}.

Definition NewClusterList (accountFilter : IncludeExcludeFilter) : ClusterList :=
  {| accountFilter := accountFilter; clusters := ∅ |}.

(** [existing.cluster = cluster], [nextCluster.processing = true] and the
    two assignments of [ClusterProcessed], on the entry a pointer names. *)
Definition set_cluster (c : Cluster) (ci : clusterInfo) : clusterInfo :=
  {| lastProcessed := lastProcessed ci; processing := processing ci; cluster := c |}.

Definition set_processing (b : bool) (ci : clusterInfo) : clusterInfo :=
  {| lastProcessed := lastProcessed ci; processing := b; cluster := cluster ci |}.

Definition set_lastProcessed (t : Time) (ci : clusterInfo) : clusterInfo :=
  {| lastProcessed := t; processing := processing ci; cluster := cluster ci |}.

Section registry.
Context `{Statuses}.

(** Body of the first loop of [UpdateAvailable], for one element of
    [availableClusters]; the state is [availableClusterIds] and
    [clusterList.clusters]. *)
Definition ingest_step (f : IncludeExcludeFilter)
    (st : gmap string bool * gmap string clusterInfo) (c : Cluster)
    : gmap string bool * gmap string clusterInfo :=
  let '(availableClusterIds, m) := st in
  if bool_decide (LifecycleStatus c = statusDecommissioned) then st
  else if negb (Allowed f (InfrastructureAccount c)) then st
  else
    (<[ID c := true]> availableClusterIds,
     match m !! ID c with
     | Some existing =>
         if negb (processing existing)
         then <[ID c := set_cluster c existing]> m
         else m
     | None =>
         <[ID c := {| lastProcessed := time_Unix 0 0;
                      processing := false;
                      cluster := c |}]> m
     end).

(** Body of the second loop of [UpdateAvailable], for one entry
    [(id, cluster)] produced by [range clusterList.clusters]. *)
Definition evict_step (availableClusterIds : gmap string bool)
    (m : gmap string clusterInfo) (entry : string * clusterInfo)
    : gmap string clusterInfo :=
  if processing entry.2 then m
  else match availableClusterIds !! entry.1 with
       | Some _ => m
       | None => delete entry.1 m
       end.

(** [UpdateAvailable], with the order in which the second loop visits the
    map given by [order]: a function from the map to a list of its
    entries. *)
Definition UpdateAvailable_in
    (order : gmap string clusterInfo → list (string * clusterInfo))
    (availableClusters : list Cluster) (cl : ClusterList) : ClusterList :=
  let '(availableClusterIds, m) :=
    foldl (ingest_step (accountFilter cl)) (∅, clusters cl) availableClusters in
  {| accountFilter := accountFilter cl;
     clusters := foldl (evict_step availableClusterIds) m (order m) |}.

(** The second loop touches, at each entry, only the key of that entry,
    so its result does not depend on the order
    ([ClusterListSpec.UpdateAvailable_in_order]); [UpdateAvailable] fixes
    the order of [map_to_list]. *)
Definition UpdateAvailable (availableClusters : list Cluster) (cl : ClusterList)
    : ClusterList :=
  UpdateAvailable_in map_to_list availableClusters cl.

Definition updatePriority (c : Cluster) : Z :=
  if negb (String.eqb (NextVersion (Status c)) "")
     && negb (String.eqb (NextVersion (Status c)) (CurrentVersion (Status c)))
  then updatePriorityAlreadyUpdating
  else if String.eqb (LifecycleStatus c) statusDecommissionRequested
  then updatePriorityDecommissionRequested
  else updatePriorityNormal.

(** Body of the loop of [SelectNext]; the state is [nextCluster] (the
    entry the pointer names, with its key) and [nextClusterPriority]. *)
Definition select_step (st : option (string * clusterInfo) * Z)
    (entry : string * clusterInfo) : option (string * clusterInfo) * Z :=
  let '(nextCluster, nextClusterPriority) := st in
  if processing entry.2 then st
  else match nextCluster with
       | None => (Some entry, updatePriority (cluster entry.2))
       | Some next =>
           let priority := updatePriority (cluster entry.2) in
           if (nextClusterPriority <? priority)
              || ((priority =? nextClusterPriority)
                  && Before (lastProcessed entry.2) (lastProcessed next.2))
           then (Some entry, priority)
           else st
       end.

Definition select_loop (order : list (string * clusterInfo))
    : option (string * clusterInfo) * Z :=
  foldl select_step (None, 0) order.

(** [SelectNext], visiting the entries of the map in the order [order];
    the result is the returned pointer ([None] for [nil]) and the registry
    after the call. *)
Definition SelectNext (order : list (string * clusterInfo)) (cl : ClusterList)
    : option Cluster * ClusterList :=
  match (select_loop order).1 with
  | None => (None, cl)
  | Some (id, nextCluster) =>
      (Some (cluster nextCluster),
       {| accountFilter := accountFilter cl;
          clusters := <[id := set_processing true nextCluster]> (clusters cl) |})
  end.

(** [ClusterProcessed]; [now] is the value of [time.Now()]. *)
Definition ClusterProcessed (id : string) (now : Time) (cl : ClusterList)
    : ClusterList :=
  match clusters cl !! id with
  | Some ci =>
      {| accountFilter := accountFilter cl;
         clusters :=
           <[id := set_lastProcessed now (set_processing false ci)]> (clusters cl) |}
  | None => cl
  end.

(** An order in which [range] may visit the entries of [m]. *)
Definition range_order (m : gmap string clusterInfo)
    (order : list (string * clusterInfo)) : Prop :=
  order ≡ₚ map_to_list m.

End registry.

(** *** Histories of the registry

    A call of one of the three methods, and the pointer it returns ([None]
    for a method without result and for [nil]). *)
Inductive call :=
| CallUpdateAvailable (availableClusters : list Cluster)
| CallSelectNext
| CallClusterProcessed (id : string) (now : Time).

Definition event : Type := call * option Cluster.

Section histories.
Context `{Statuses}.

Inductive step : ClusterList → call → option Cluster → ClusterList → Prop :=
| step_UpdateAvailable cl availableClusters :
    step cl (CallUpdateAvailable availableClusters) None
         (UpdateAvailable availableClusters cl)
| step_SelectNext cl order r cl' :
    range_order (clusters cl) order →
    SelectNext order cl = (r, cl') →
    step cl CallSelectNext r cl'
| step_ClusterProcessed cl id now :
    step cl (CallClusterProcessed id now) None (ClusterProcessed id now cl).

Inductive exec : ClusterList → list event → ClusterList → Prop :=
| exec_nil cl : exec cl [] cl
| exec_cons cl c r cl' evs cl'' :
    step cl c r cl' → exec cl' evs cl'' → exec cl ((c, r) :: evs) cl''.

(** The history of a sequence of calls in which every [SelectNext]
    visits the map in the order of [map_to_list]. *)
Fixpoint replay (cl : ClusterList) (calls : list call) : list event * ClusterList :=
  match calls with
  | [] => ([], cl)
  | c :: calls =>
      let '(r, cl') :=
        match c with
        | CallUpdateAvailable availableClusters =>
            (None, UpdateAvailable availableClusters cl)
        | CallSelectNext => SelectNext (map_to_list (clusters cl)) cl
        | CallClusterProcessed id now => (None, ClusterProcessed id now cl)
        end in
      let '(evs, cl'') := replay cl' calls in
      ((c, r) :: evs, cl'')
  end.

End histories.

(** *** Vocabulary of the properties *)
Section vocabulary.
Context `{Statuses}.

Implicit Types (m : gmap string clusterInfo) (ci : clusterInfo)
  (cl : ClusterList) (c : Cluster).

(** A record of the input passes both filters of the first loop. *)
Definition accepted (f : IncludeExcludeFilter) c : bool :=
  negb (bool_decide (LifecycleStatus c = statusDecommissioned))
  && Allowed f (InfrastructureAccount c).

(** Every entry is filed under the ID of its cluster. *)
Definition keyed m : Prop := ∀ k ci, m !! k = Some ci → ID (cluster ci) = k.

(** The three tiers, in the words of the specification. *)
Definition mid_update c : Prop :=
  NextVersion (Status c) ≠ ""
  ∧ NextVersion (Status c) ≠ CurrentVersion (Status c).

Definition decommission_requested c : Prop :=
  ¬ mid_update c ∧ LifecycleStatus c = statusDecommissionRequested.

Definition normal c : Prop :=
  ¬ mid_update c ∧ LifecycleStatus c ≠ statusDecommissionRequested.

(** The entry under [id] can be selected. *)
Definition eligible cl (id : string) ci : Prop :=
  clusters cl !! id = Some ci ∧ processing ci = false.

(** The registry after [SelectNext] has marked the entry [id]. *)
Definition marked (id : string) ci cl : ClusterList :=
  {| accountFilter := accountFilter cl;
     clusters := <[id := set_processing true ci]> (clusters cl) |}.

(** [e] is at least as urgent as [e']: a higher tier, or the same tier
    and not processed later. *)
Definition precedes (e e' : string * clusterInfo) : Prop :=
  updatePriority (cluster e'.2) < updatePriority (cluster e.2)
  ∨ (updatePriority (cluster e'.2) = updatePriority (cluster e.2)
     ∧ lastProcessed e.2 ≤ lastProcessed e'.2).

(** What the loop state knows after visiting the entries [seen]. *)
Definition scanned (seen : list (string * clusterInfo))
    (st : option (string * clusterInfo) * Z) : Prop :=
  match st.1 with
  | None => ∀ e, e ∈ seen → processing e.2 = true
  | Some next =>
      next ∈ seen ∧ processing next.2 = false
      ∧ st.2 = updatePriority (cluster next.2)
      ∧ ∀ e, e ∈ seen → processing e.2 = false → precedes next e
  end.

End vocabulary.
End controller.

(** ** Go library functions used by channel/git.go

    These are functions of the Go standard library, not of the repository;
    they are written out after their documentation and their source so that
    the embedding of [git.go] runs on concrete inputs.  A Go string is a
    sequence of bytes.  The packages [path] and [fmt] work on the bytes; the
    packages [regexp], [strings] and [unicode] read a string as UTF-8, one
    character at a time, through the package [unicode/utf8]. *)

Module golib.

(** *** package unicode/utf8 *)

(** The value of a byte. *)
Definition byte (a : ascii) : Z := Z.of_N (N_of_ascii a).

Definition RuneError : Z := 65533.
Definition RuneSelf : Z := 128.
Definition UTFMax : nat := 4.

(** The slices [s[n:]] and [s[:n]]. *)
Fixpoint slice_from (n : nat) (s : string) : string :=
  match n, s with
  | S n', String _ s' => slice_from n' s'
  | _, _ => s
  end.

Definition slice_to (n : nat) (s : string) : string := substring 0 n s.

(** The value of the byte [s[i]]. *)
Definition byte_at (s : string) (i : Z) : Z :=
  match String.get (Z.to_nat i) s with
  | Some a => byte a
  | None => 0
  end.

(** The table [first] for the first byte of an encoding of more than one
    byte: the width of the encoding and the range accepted for its second
    byte; [None] for a byte that begins no such encoding. *)
Definition first (b : Z) : option (nat * Z * Z) :=
  if b <? 0xC2 then None
  else if b <? 0xE0 then Some (2%nat, 0x80, 0xBF)
  else if b =? 0xE0 then Some (3%nat, 0xA0, 0xBF)
  else if b <? 0xED then Some (3%nat, 0x80, 0xBF)
  else if b =? 0xED then Some (3%nat, 0x80, 0x9F)
  else if b <? 0xF0 then Some (3%nat, 0x80, 0xBF)
  else if b =? 0xF0 then Some (4%nat, 0x90, 0xBF)
  else if b <? 0xF4 then Some (4%nat, 0x80, 0xBF)
  else if b =? 0xF4 then Some (4%nat, 0x80, 0x8F)
  else None.

(** A byte that continues an encoding. *)
Definition continues (b : Z) : bool := (0x80 <=? b) && (b <=? 0xBF).

(** [utf8.DecodeRuneInString]: the character at the head of [s] and the
    number of bytes of its encoding; [(RuneError, 0)] for the empty string
    and [(RuneError, 1)] where the bytes are no encoding. *)
Definition DecodeRuneInString (s : string) : Z * nat :=
  match s with
  | EmptyString => (RuneError, 0%nat)
  | String a0 s1 =>
      let s0 := byte a0 in
      if s0 <? RuneSelf then (s0, 1%nat)
      else
        match first s0, s1 with
        | None, _ | _, EmptyString => (RuneError, 1%nat)
        | Some (sz, lo, hi), String a1 s2 =>
            let b1 := byte a1 in
            if (b1 <? lo) || (hi <? b1) then (RuneError, 1%nat)
            else if (sz <=? 2)%nat
            then (Z.lor (Z.shiftl (Z.land s0 0x1F) 6) (Z.land b1 0x3F), 2%nat)
            else
              match s2 with
              | EmptyString => (RuneError, 1%nat)
              | String a2 s3 =>
                  let b2 := byte a2 in
                  if negb (continues b2) then (RuneError, 1%nat)
                  else if (sz <=? 3)%nat
                  then (Z.lor (Z.shiftl (Z.land s0 0x0F) 12)
                          (Z.lor (Z.shiftl (Z.land b1 0x3F) 6) (Z.land b2 0x3F)),
                        3%nat)
                  else
                    match s3 with
                    | EmptyString => (RuneError, 1%nat)
                    | String a3 _ =>
                        let b3 := byte a3 in
                        if negb (continues b3) then (RuneError, 1%nat)
                        else (Z.lor (Z.shiftl (Z.land s0 0x07) 18)
                                (Z.lor (Z.shiftl (Z.land b1 0x3F) 12)
                                   (Z.lor (Z.shiftl (Z.land b2 0x3F) 6)
                                      (Z.land b3 0x3F))),
                              4%nat)
                    end
              end
        end
  end.

(** [utf8.RuneStart]: the byte is no continuation byte. *)
Definition RuneStart (b : Z) : bool := negb (Z.land b 0xC0 =? 0x80).

(** The loop of [DecodeLastRuneInString] that goes back from [start] to
    [lim] until it meets the first byte of an encoding. *)
Fixpoint rune_start_back (s : string) (lim : Z) (fuel : nat) (start : Z) : Z :=
  match fuel with
  | O => start
  | S fuel' =>
      if start <? lim then start
      else if RuneStart (byte_at s start) then start
      else rune_start_back s lim fuel' (start - 1)
  end.

(** [utf8.DecodeLastRuneInString]: the character at the end of [s]. *)
Definition DecodeLastRuneInString (s : string) : Z * nat :=
  let end_ := Z.of_nat (String.length s) in
  if end_ =? 0 then (RuneError, 0%nat)
  else
    let start := end_ - 1 in
    let r := byte_at s start in
    if r <? RuneSelf then (r, 1%nat)
    else
      let lim := Z.max 0 (end_ - Z.of_nat UTFMax) in
      let start := Z.max 0 (rune_start_back s lim UTFMax (start - 1)) in
      let '(r, size) := DecodeRuneInString (slice_from (Z.to_nat start) s) in
      if start + Z.of_nat size =? end_ then (r, size) else (RuneError, 1%nat).

(** *** package unicode *)

(** [unicode.IsSpace]: the characters with the property White_Space. *)
Definition IsSpace (r : Z) : bool :=
  if r <=? 0xFF
  then ((0x09 <=? r) && (r <=? 0x0D)) || (r =? 0x20) || (r =? 0x85) || (r =? 0xA0)
  else (r =? 0x1680) || ((0x2000 <=? r) && (r <=? 0x200A))
       || (r =? 0x2028) || (r =? 0x2029) || (r =? 0x202F) || (r =? 0x205F)
       || (r =? 0x3000).

(** *** package regexp: the operators of [repoNameRE]

    Go's matcher returns the leftmost match and, among the matches that
    start there, the one a backtracking search finds first; [?] and [+]
    are greedy.  [exec_re r s caps k] matches [r] at the head of [s] and
    hands the rest of the input and the submatches to [k].  The matcher
    reads its input one character at a time with [DecodeRuneInString].  A
    literal [Lit c] is an ASCII character and a class [CharClass p] a set
    of ASCII characters, each one byte long and met by no byte of a longer
    encoding; the dot takes one whole character that is not a newline, an
    invalid byte counting as the character [RuneError]. *)
Inductive regexp :=
| Lit (c : ascii)
| AnyCharNotNL
| CharClass (p : ascii → bool)
| Concat (r1 r2 : regexp)
| Quest (r : regexp)
| Plus (r : regexp)
| Capture (i : nat) (r : regexp)
| EndText.

(** The part of [s] in front of its suffix [rest]. *)
Definition consumed (s rest : string) : string :=
  substring 0 (String.length s - String.length rest) s.

(** Greedy repetition of the matcher [once], one time or more: after each
    round it prefers another round to going on with [k].  A round that
    takes nothing ends the repetition, so [String.length s] rounds and one
    are enough. *)
Fixpoint repeat_re
    (once : string → list string →
            (string → list string → option (list string)) →
            option (list string))
    (fuel : nat) (s : string) (caps : list string)
    (k : string → list string → option (list string))
    : option (list string) :=
  match fuel with
  | O => None
  | S fuel' =>
      once s caps (λ s' caps',
        let again :=
          if (String.length s' <? String.length s)%nat
          then repeat_re once fuel' s' caps' k else None in
        match again with
        | Some res => Some res
        | None => k s' caps'
        end)
  end.

Fixpoint exec_re (r : regexp) (s : string) (caps : list string)
    (k : string → list string → option (list string)) {struct r}
    : option (list string) :=
  match r with
  | Lit c =>
      match s with
      | String a s' => if Ascii.eqb a c then k s' caps else None
      | EmptyString => None
      end
  | AnyCharNotNL =>
      match s with
      | String a _ =>
          if Ascii.eqb a "010" then None
          else k (slice_from (DecodeRuneInString s).2 s) caps
      | EmptyString => None
      end
  | CharClass p =>
      match s with
      | String a s' => if p a then k s' caps else None
      | EmptyString => None
      end
  | Concat r1 r2 => exec_re r1 s caps (λ s' caps', exec_re r2 s' caps' k)
  | Quest r1 =>
      match exec_re r1 s caps k with
      | Some res => Some res
      | None => k s caps
      end
  | Plus r1 => repeat_re (exec_re r1) (S (String.length s)) s caps k
  | Capture i r1 =>
      exec_re r1 s caps (λ s' caps', k s' (<[i := consumed s s']> caps'))
  | EndText =>
      match s with
      | EmptyString => k s caps
      | String _ _ => None
      end
  end.

(** The search of the matcher for the leftmost match: it tries the
    pattern where a character begins, and goes on behind that character
    when the pattern does not match there.  [inside] is the number of bytes
    of the current character that are still ahead. *)
Fixpoint find_from (r : regexp) (groups : nat) (inside : nat) (s : string)
    : list string :=
  match inside with
  | S inside' =>
      match s with
      | String _ s' => find_from r groups inside' s'
      | EmptyString => []
      end
  | O =>
      match exec_re r s (replicate (S groups) EmptyString)
              (λ s' caps, Some (<[O := consumed s s']> caps)) with
      | Some caps => caps
      | None =>
          match s with
          | String _ s' =>
              find_from r groups (pred (DecodeRuneInString s).2) s'
          | EmptyString => []
          end
      end
  end.

(** [Regexp.FindStringSubmatch] for a pattern with [groups] capturing
    groups: [nil] when nothing matches, otherwise the match followed by
    the text of each group (the empty string for a group that took no
    part). *)
Definition FindStringSubmatch (r : regexp) (groups : nat) (s : string)
    : list string :=
  find_from r groups 0 s.

Definition between (lo hi : nat) (a : ascii) : bool :=
  (lo <=? nat_of_ascii a)%nat && (nat_of_ascii a <=? hi)%nat.

(** The Perl class [\w]: [0-9A-Za-z_]. *)
Definition word_char (a : ascii) : bool :=
  between 48 57 a || between 65 90 a || between 97 122 a || Ascii.eqb a "_".

(** *** package path *)

(** The elements of [s] between its slashes. *)
Fixpoint split_slash (s : string) : list string :=
  match s with
  | EmptyString => [EmptyString]
  | String c s' =>
      if Ascii.eqb c "/" then EmptyString :: split_slash s'
      else match split_slash s' with
           | h :: t => String c h :: t
           | [] => [String c EmptyString]
           end
  end.

(** The rules of [path.Clean] on the elements of a path; [out] is the
    cleaned path so far, last element first. *)
Fixpoint clean_elems (rooted : bool) (out : list string) (elems : list string)
    : list string :=
  match elems with
  | [] => out
  | e :: rest =>
      if String.eqb e "" || String.eqb e "." then clean_elems rooted out rest
      else if String.eqb e ".." then
        match out with
        | top :: out' =>
            if String.eqb top ".." then clean_elems rooted (e :: out) rest
            else clean_elems rooted out' rest
        | [] =>
            if rooted then clean_elems rooted [] rest
            else clean_elems rooted [e] rest
        end
      else clean_elems rooted (e :: out) rest
  end.

Definition IsAbs (p : string) : bool := String.prefix "/" p.

Definition Clean (p : string) : string :=
  let rooted := IsAbs p in
  let out := String.concat "/" (rev (clean_elems rooted [] (split_slash p))) in
  if rooted then String "/" out
  else if String.eqb out "" then "." else out.

(** [path.Join]: the elements from the first non-empty one on, separated
    by slashes and cleaned; the empty string when there is none. *)
Fixpoint Join (elem : list string) : string :=
  match elem with
  | [] => ""
  | e :: rest =>
      if String.eqb e "" then Join rest
      else Clean (String.concat "/" elem)
  end.

(** *** package fmt: the verb [%d] *)
Definition Sprintd (n : Z) : string := NilZero.string_of_int (Z.to_int n).

(** *** package strings *)

(** The loop [for i, r := range s] of [indexFunc]: the index of the first
    character from the index [i] on for which [f] gives [truth], [-1] when
    there is none. *)
Fixpoint indexFunc_loop (f : Z → bool) (truth : bool) (fuel : nat)
    (s : string) (i : nat) : Z :=
  match fuel with
  | O => -1
  | S fuel' =>
      match slice_from i s with
      | EmptyString => -1
      | rest =>
          let '(r, width) := DecodeRuneInString rest in
          if Bool.eqb (f r) truth then Z.of_nat i
          else indexFunc_loop f truth fuel' s (i + width)
      end
  end.

Definition indexFunc (s : string) (f : Z → bool) (truth : bool) : Z :=
  indexFunc_loop f truth (String.length s) s 0.

(** The loop of [lastIndexFunc], which reads [s[0:i]] from its end. *)
Fixpoint lastIndexFunc_loop (f : Z → bool) (truth : bool) (fuel : nat)
    (s : string) (i : nat) : Z :=
  match fuel with
  | O => -1
  | S fuel' =>
      if (i =? 0)%nat then -1
      else
        let '(r, size) := DecodeLastRuneInString (slice_to i s) in
        let i := (i - size)%nat in
        if Bool.eqb (f r) truth then Z.of_nat i
        else lastIndexFunc_loop f truth fuel' s i
  end.

Definition lastIndexFunc (s : string) (f : Z → bool) (truth : bool) : Z :=
  lastIndexFunc_loop f truth (String.length s) s (String.length s).

Definition TrimLeftFunc (s : string) (f : Z → bool) : string :=
  let i := indexFunc s f false in
  if i =? -1 then EmptyString else slice_from (Z.to_nat i) s.

Definition TrimRightFunc (s : string) (f : Z → bool) : string :=
  let i := lastIndexFunc s f false in
  let i :=
    if (0 <=? i) && (RuneSelf <=? byte_at s i)
    then i + Z.of_nat (DecodeRuneInString (slice_from (Z.to_nat i) s)).2
    else i + 1 in
  slice_to (Z.to_nat i) s.

Definition TrimFunc (s : string) (f : Z → bool) : string :=
  TrimRightFunc (TrimLeftFunc s f) f.

(** [strings.TrimSpace]: [s] without the white space, as Unicode defines
    it, at its two ends.  (The shortcut of the function for an input that
    is ASCII gives the same result.) *)
Definition TrimSpace (s : string) : string := TrimFunc s IsSpace.

End golib.


(** ** channel/git.go *)

Module channel.
Import golib.

(** A Go [error] that is not [nil], by its message. *)
Definition error := string.

Inductive result (A : Type) :=
| Ok (a : A)
| Err (e : error).
Arguments Ok {A} a.
Arguments Err {A} e.

(** [exec.Cmd]: the argument vector and the environment set on it
    ([[]] for [nil], the environment of the parent). *)
Record Cmd := mkCmd {
  Args : list string;
  Env : list string
}.

(** What the methods act on: the paths that exist in the file system, and
    the subprocesses started so far, oldest first. *)
Record World := mkWorld {
  files : gset string;
  spawned : list Cmd
}.

(** The surroundings of the process: the result of [os.Getwd], and what a
    subprocess writes on its standard output, whether it fails, and what
    it does to the file system. *)
Class System := mkSystem {
  Getwd : result string;
  subprocess : Cmd → gset string → string * option error * gset string
}.

(** A method that may fail and may act on the world; the effects of a
    failed call stay. *)
Definition IO (A : Type) : Type := World → result A * World.

#[global] Instance IO_ret : MRet IO := λ A a w, (Ok a, w).

#[global] Instance IO_bind : MBind IO := λ A B k c w,
  match c w with
  | (Ok a, w') => k a w'
  | (Err e, w') => (Err e, w')
  end.

(** A computation that fails or not without acting on the world. *)
Definition pure {A} (r : result A) : IO A := λ w, (r, w).

(** Starting the subprocess of an [exec.Cmd]; the result is its standard
    output. *)
Definition start `{System} (c : Cmd) : IO string := λ w,
  let '(out, err, fs) := subprocess c (files w) in
  (match err with Some e => Err e | None => Ok out end,
   {| files := fs; spawned := spawned w ++ [c] |}).

(** Modelled from the spec: [command.Run] of [pkg/util/command] is not among
    the sources; it runs the subprocess and returns its failure. *)
Definition command_Run `{System} (c : Cmd) : IO unit :=
  _ ← start c; mret tt.

(** [exec.Cmd.Output]. *)
Definition Output `{System} (c : Cmd) : IO string := start c.

(** [filepath.Abs], on a system with slash-separated paths. *)
Definition filepath_Abs `{System} (p : string) : result string :=
  if IsAbs p then Ok (Clean p)
  else match Getwd with
       | Ok wd => Ok (Join [wd; p])
       | Err e => Err e
       end.

(** The path [q] names the file that the path [p] names, or a file below
    it.  A path names a file through its absolute, cleaned form; symbolic
    links are outside the model.  Nothing lies within the empty path, and
    nothing is named by a relative path when there is no working
    directory. *)
Definition within `{System} (p q : string) : bool :=
  negb (String.eqb p "")
  && match filepath_Abs p, filepath_Abs q with
     | Ok p', Ok q' =>
         String.eqb q' p'
         || String.prefix (if String.eqb p' "/" then "/" else p' +:+ "/") q'
     | _, _ => false
     end.

(** The file at [p] is there: the world has it, or a file below it. *)
Definition present `{System} (p : string) (fs : gset string) : bool :=
  existsb (within p) (elements fs).

(** What the set of existing paths does not determine of the answers of
    the operating system when a tree is removed.
    - [lookup_fails p fs], for a path that is not there: the error with
      which the system refuses to look the path up, when its answer is not
      that the path does not exist (ENOTDIR for a path below a regular
      file, EACCES below a directory that may not be searched, ...).
    - [removal_fails p fs], for a path that is there: the first error met
      in removing the file and what it contains, together with the paths
      that are left of them; [None] when all of it can be removed. *)
Class FileSystem := mkFileSystem {
  lookup_fails : string → gset string → option error;
  removal_fails : string → gset string → option (error * gset string)
}.

(** [strings.HasSuffix]. *)
Fixpoint HasSuffix (s suffix : string) : bool :=
  String.eqb s suffix
  || match s with
     | String _ s' => HasSuffix s' suffix
     | EmptyString => false
     end.

(** [endsWithDot] of the package [os]: the last element of the path is
    [.]. *)
Definition endsWithDot (p : string) : bool :=
  String.eqb p "." || HasSuffix p "/.".

(** The [*PathError] of [os.RemoveAll] for a path that ends in a dot. *)
Definition EINVAL (p : string) : error :=
  "RemoveAll " +:+ p +:+ ": invalid argument".

(** [os.RemoveAll], after its source (Go 1.12 and later) and its
    documentation.  The empty
    path is no error and nothing is done for it; a path whose last element
    is [.] is refused with EINVAL before the file system is looked at.
    Otherwise the file and what it contains are removed, and a path that
    does not exist is no error.  Where the removal fails, what could be
    removed is removed and the first error is returned. *)
Definition os_RemoveAll `{System} `{FileSystem} (p : string) : IO unit := λ w,
  if String.eqb p "" then (Ok tt, w)
  else if endsWithDot p then (Err (EINVAL p), w)
  else if present p (files w) then
    match removal_fails p (files w) with
    | Some (e, kept) =>
        (Err e, {| files := filter (λ q, within p q = false ∨ q ∈ kept) (files w);
                   spawned := spawned w |})
    | None =>
        (Ok tt, {| files := filter (λ q, within p q = false) (files w);
                   spawned := spawned w |})
    end
  else
    match lookup_fails p (files w) with
    | Some e => (Err e, w)
    | None => (Ok tt, w)
    end.

Record Config := mkConfig {
  Version : string;
  Path : string
}.

(** The struct [Git]; its mutex guards [Update] only. *)
Record Git := mkGit {
  workdir : string;
  repositoryURL : string;
  repoName : string;
  repoDir : string;
  sshPrivateKeyFile : string
}.

(** The pattern [/?([\w-]+)(.git)?$]. *)
Definition repoNameRE : regexp :=
  Concat (Quest (Lit "/"))
 (Concat (Capture 1 (Plus (CharClass (λ a, word_char a || Ascii.eqb a "-"))))
 (Concat (Quest (Capture 2 (Concat AnyCharNotNL
                           (Concat (Lit "g") (Concat (Lit "i") (Lit "t"))))))
         EndText)).

Definition getRepoName (repoURI : string) : result string :=
  let match_ := FindStringSubmatch repoNameRE 2 repoURI in
  if negb (List.length match_ =? 3)%nat
  then Err ("could not parse repository name from uri: " +:+ repoURI)
  else Ok (nth 1 match_ "").

Section methods.
Context `{System} `{FileSystem}.

Definition NewGit (workdir repositoryURL sshPrivateKeyFile : string) : IO Git :=
  absWorkdir ← pure (filepath_Abs workdir);
  repoName ← pure (getRepoName repositoryURL);
  mret {| workdir := absWorkdir;
          repoName := repoName;
          repositoryURL := repositoryURL;
          repoDir := Join [absWorkdir; repoName];
          sshPrivateKeyFile := sshPrivateKeyFile |}.

(** [cmd] executes a git command with the environment of [g]. *)
Definition cmd (g : Git) (args : list string) : IO unit :=
  command_Run
    {| Args := "git" :: args;
       Env := if negb (String.eqb (sshPrivateKeyFile g) "")
              then ["GIT_SSH_COMMAND=ssh -i " +:+ sshPrivateKeyFile g
                      +:+ " -o 'StrictHostKeyChecking no'"]
              else [] |}.

(** The directory name [localClone] formats with [%s_%s_%d]. *)
Definition cloneName (g : Git) (channel : string) (nanos : Z) : string :=
  repoName g +:+ "_" +:+ channel +:+ "_" +:+ Sprintd nanos.

(** [localClone]; [now] is [time.Now().UTC().UnixNano()]. *)
Definition localClone (g : Git) (channel : string) (now : Z) : IO string :=
  let dir := Join [workdir g; cloneName g channel now] in
  let srcRepoUrl := "file://" +:+ repoDir g in
  _ ← cmd g ["clone"; srcRepoUrl; dir];
  _ ← cmd g ["-C"; dir; "checkout"; channel];
  mret dir.

Definition currentRevision (g : Git) (dir : string) : IO string :=
  d ← Output {| Args := ["git"; "-C"; dir; "rev-parse"; "HEAD"]; Env := [] |};
  mret (TrimSpace d).

Definition Get (g : Git) (channel : string) (now : Z) : IO Config :=
  dir ← localClone g channel now;
  version ← currentRevision g dir;
  mret {| Version := version; Path := dir |}.

Definition Delete (g : Git) (config : Config) : IO unit :=
  os_RemoveAll (Path config).

End methods.

(** *** Vocabulary of the properties *)

(** The character [c] occurs in [s]. *)
Fixpoint occurs (c : ascii) (s : string) : bool :=
  match s with
  | EmptyString => false
  | String a s' => Ascii.eqb a c || occurs c s'
  end.

(** The part of [s] behind its last [c]; all of [s] when it has none. *)
Fixpoint after_last (c : ascii) (s : string) : string :=
  match s with
  | EmptyString => EmptyString
  | String a s' =>
      if occurs c s' then after_last c s'
      else if Ascii.eqb a c then s' else s
  end.

(** A continuation that returns submatches of the length it was given. *)
Definition keeps_length (n : nat)
    (k : string → list string → option (list string)) : Prop :=
  ∀ s caps res, List.length caps = n → k s caps = Some res → List.length res = n.

(** A path element that [path.Clean] keeps as it is. *)
Definition plain (e : string) : Prop := e ≠ "" ∧ e ≠ "." ∧ e ≠ "..".

End channel.

(** ** Concrete data for the examples *)

Module Examples.
Import api config controller.

Definition statuses : Statuses :=
  {| statusDecommissionRequested := "decommission-requested";
     statusDecommissioned := "decommissioned" |}.

Definition allow_all : IncludeExcludeFilter := {| Allowed := λ _, true |}.

(** A cluster in no special state, as the inventory reports it. *)
Definition ready (id : string) : Cluster :=
  {| ID := id; InfrastructureAccount := "a1"; LifecycleStatus := "ready";
     Status := {| CurrentVersion := "v1"; NextVersion := "" |} |}.

Definition decommissionRequested (id : string) : Cluster :=
  {| ID := id; InfrastructureAccount := "a1";
     LifecycleStatus := "decommission-requested";
     Status := {| CurrentVersion := "v1"; NextVersion := "" |} |}.

Definition decommissioned (id : string) : Cluster :=
  {| ID := id; InfrastructureAccount := "a1";
     LifecycleStatus := "decommissioned";
     Status := {| CurrentVersion := "v1"; NextVersion := "" |} |}.

Definition updating (id : string) : Cluster :=
  {| ID := id; InfrastructureAccount := "a1"; LifecycleStatus := "ready";
     Status := {| CurrentVersion := "v1"; NextVersion := "v2" |} |}.

(** Both at once: an update under way and decommissioning requested. *)
Definition updatingDecommissionRequested (id : string) : Cluster :=
  {| ID := id; InfrastructureAccount := "a1";
     LifecycleStatus := "decommission-requested";
     Status := {| CurrentVersion := "v1"; NextVersion := "v2" |} |}.

Definition empty : ClusterList := NewClusterList allow_all.

(** A system in which git does what it is asked: [clone] creates its
    target, and refuses a target that exists; [checkout] succeeds;
    [rev-parse] prints a revision. *)
Definition git_ok : channel.System :=
  {| channel.Getwd := channel.Ok "/home/clm";
     channel.subprocess := λ c fs,
       match channel.Args c with
       | ["git"; "clone"; _; dst] =>
           if bool_decide (dst ∈ fs)
           then ("", Some "fatal: destination path already exists", fs)
           else ("", None, {[dst]} ∪ fs)
       | ["git"; "-C"; _; "checkout"; _] => ("", None, fs)
       | ["git"; "-C"; _; "rev-parse"; "HEAD"] =>
           ("8c1f0e2b7d5a4c3b9e6f1a2d3c4b5a6978685746" +:+ String "010" "", None, fs)
       | _ => ("", Some "git: unknown command", fs)
       end |}.

Definition config_source : channel.Git :=
  {| channel.workdir := "/home/clm/work";
     channel.repositoryURL := "https://github.com/foo/conf.git";
     channel.repoName := "conf";
     channel.repoDir := "/home/clm/work/conf";
     channel.sshPrivateKeyFile := "" |}.

(** The mirror of [config_source] is in place and nothing has run. *)
Definition mirrored : channel.World :=
  {| channel.files := {["/home/clm/work/conf"]}; channel.spawned := [] |}.

(** A file system in which every path can be looked up and every file can
    be removed. *)
Definition fs_ok : channel.FileSystem :=
  {| channel.lookup_fails := λ _ _, None;
     channel.removal_fails := λ _ _, None |}.

(** The snapshot of the channel [stable] taken when the clock reads
    1500000000000000000 ns. *)
Definition snapshot : channel.Config :=
  {| channel.Version := "8c1f0e2b7d5a4c3b9e6f1a2d3c4b5a6978685746";
     channel.Path := "/home/clm/work/conf_stable_1500000000000000000" |}.

Section histories.
#[local] Existing Instance statuses.

(** The end-to-end scenario: a cluster is ingested, selected, reported
    complete and selected again. *)
Definition select_twice : list call :=
  [CallUpdateAvailable [ready "x"]; CallSelectNext;
   CallClusterProcessed "x" 1500000000000000000; CallSelectNext].

(** One cluster of each tier, none selected. *)
Definition three_tiers : ClusterList :=
  UpdateAvailable [ready "a"; decommissionRequested "b"; updating "c"] empty.

(** Two normal clusters, processed at different times. *)
Definition two_normal : ClusterList :=
  (replay empty
     [CallUpdateAvailable [ready "a"; ready "b"];
      CallSelectNext; CallSelectNext;
      CallClusterProcessed "a" 10; CallClusterProcessed "b" 20]).2.

(** A tracked cluster that is not selected, and one that is. *)
Definition idle_x : ClusterList := UpdateAvailable [ready "x"] empty.

Definition in_flight_x : ClusterList :=
  (replay empty [CallUpdateAvailable [ready "x"]; CallSelectNext]).2.

End histories.

End Examples.

(** ** Terms for the properties of the registry as a whole *)

Module reconcile.
Import api config controller.

Section terms.
Context `{Statuses}.

(** The last record of the input that passes both filters and carries the
    ID [k]. *)
Definition latest (f : IncludeExcludeFilter) (availableClusters : list Cluster)
    (k : string) : option Cluster :=
  foldl (λ found c, if accepted f c && bool_decide (ID c = k) then Some c else found)
        None availableClusters.

(** What reconciliation makes of the entry [old] under a key for which the
    input has the accepted record [new]. *)
Definition reconciled (old : option clusterInfo) (new : option Cluster)
    : option clusterInfo :=
  match old, new with
  | Some ci, Some c => if processing ci then Some ci else Some (set_cluster c ci)
  | Some ci, None => if processing ci then Some ci else None
  | None, Some c =>
      Some {| lastProcessed := time_Unix 0 0; processing := false; cluster := c |}
  | None, None => None
  end.

(** The number of entries that can be selected. *)
Definition eligible_count (cl : ClusterList) : nat :=
  size (filter (λ entry : string * clusterInfo, processing entry.2 = false)
               (clusters cl)).

(** [e] is strictly more urgent than [e']. *)
Definition outranks (e e' : clusterInfo) : Prop :=
  updatePriority (cluster e') < updatePriority (cluster e)
  ∨ (updatePriority (cluster e') = updatePriority (cluster e)
     ∧ lastProcessed e < lastProcessed e').

(** Every tracked cluster passed both filters of [f]. *)
Definition all_accepted (f : IncludeExcludeFilter)
    (m : gmap string clusterInfo) : Prop :=
  ∀ k ci, m !! k = Some ci → accepted f (cluster ci) = true.

End terms.
End reconcile.

(** ** channel/git.go: the mirror *)

Module mirror.
Import golib channel.

(** What [os.Stat] answers for a path in a file system ([None] for a [nil]
    error), and [os.IsNotExist]. *)
Class Stat := mkStat {
  os_Stat : string → gset string → option error;
  os_IsNotExist : error → bool
}.

(** The file-system part of [os.Stat] as a step of a method: it reads the
    world and does not fail as a step, its error being a value. *)
Definition stat `{Stat} (p : string) : IO (option error) := λ w,
  (Ok (os_Stat p (files w)), w).

Section methods.
Context `{System} `{Stat}.

(** [Update]; the mutex it holds orders whole calls. *)
Definition Update (g : Git) : IO unit :=
  err ← stat (repoDir g);
  _ ← match err with
      | Some err =>
          if negb (os_IsNotExist err) then pure (Err err)
          else cmd g ["clone"; "--mirror"; repositoryURL g; repoDir g]
      | None => mret tt
      end;
  cmd g ["--git-dir"; repoDir g; "remote"; "update"; "--prune"].

End methods.
End mirror.

(** ** Terms for the properties of the config source *)

Module gitterms.
Import golib channel.

(** The [exec.Cmd] that [cmd] builds for [g] and the arguments [args]. *)
Definition git_cmd (g : Git) (args : list string) : Cmd :=
  {| Args := "git" :: args;
     Env := if negb (String.eqb (sshPrivateKeyFile g) "")
            then ["GIT_SSH_COMMAND=ssh -i " +:+ sshPrivateKeyFile g
                    +:+ " -o 'StrictHostKeyChecking no'"]
            else [] |}.

(** The subprocesses of [Update]. *)
Definition mirror_clone (g : Git) : Cmd :=
  git_cmd g ["clone"; "--mirror"; repositoryURL g; repoDir g].

Definition mirror_fetch (g : Git) : Cmd :=
  git_cmd g ["--git-dir"; repoDir g; "remote"; "update"; "--prune"].

(** The subprocesses of [Get] for the checkout directory [dir], in the
    order in which it starts them. *)
Definition checkout_cmds (g : Git) (channel dir : string) : list Cmd :=
  [git_cmd g ["clone"; "file://" +:+ repoDir g; dir];
   git_cmd g ["-C"; dir; "checkout"; channel];
   {| Args := ["git"; "-C"; dir; "rev-parse"; "HEAD"]; Env := [] |}].

(** Starting the subprocesses [cmds] in turn, up to the first one that
    fails: the failure, if any, the standard output of the last one started,
    and the world they leave. *)
Fixpoint run_in_turn `{System} (cmds : list Cmd) (out : string) (w : World)
    : option error * string * World :=
  match cmds with
  | [] => (None, out, w)
  | c :: cmds =>
      let '(out, err, fs) := subprocess c (files w) in
      let w' := {| files := fs; spawned := spawned w ++ [c] |} in
      match err with
      | Some e => (Some e, out, w')
      | None => run_in_turn cmds out w'
      end
  end.

(** What a method that only runs subprocesses returns for such a run. *)
Definition outcome (run : option error * string * World) : result unit * World :=
  (match run.1.1 with Some e => Err e | None => Ok tt end, run.2).

(** Every character of [s] satisfies [p]. *)
Fixpoint all_chars (p : ascii → bool) (s : string) : bool :=
  match s with
  | EmptyString => true
  | String a s' => p a && all_chars p s'
  end.

(** The characters of the class [[\w-]] of [repoNameRE]. *)
Definition name_char (a : ascii) : bool := word_char a || Ascii.eqb a "-".

(** The longest run of characters that satisfy [p] at the end of [s]. *)
Fixpoint tail_run (p : ascii → bool) (s : string) : string :=
  match s with
  | EmptyString => EmptyString
  | String a s' =>
      let run := tail_run p s' in
      if p a && (String.length run =? String.length s')%nat then s else run
  end.

(** A byte of an encoding of more than one byte. *)
Definition high (a : ascii) : bool := 128 <=? byte a.

(** What the matcher reads as one character: the encoding of a character,
    or one byte where the bytes are no encoding. *)
Definition one_char (ch : string) : Prop :=
  ch ≠ "" ∧ (DecodeRuneInString ch).2 = String.length ch.

(** The pattern [r] has a capturing group with the index [j]. *)
Fixpoint captures_index (j : nat) (r : regexp) : bool :=
  match r with
  | Capture i r1 => Nat.eqb i j || captures_index j r1
  | Concat r1 r2 => captures_index j r1 || captures_index j r2
  | Quest r1 | Plus r1 => captures_index j r1
  | _ => false
  end.

(** A continuation that leaves the submatch [j] as it is. *)
Definition keeps_index (j : nat)
    (k : string → list string → option (list string)) : Prop :=
  ∀ s caps res, k s caps = Some res → res !! j = caps !! j.

End gitterms.

(** * Properties of the registry *)

Module ClusterListSpec.
Import api config controller.

Section facts.
Context `{Statuses}.

Implicit Types (m : gmap string clusterInfo) (ci : clusterInfo)
  (order : list (string * clusterInfo)) (cl : ClusterList) (c : Cluster).

(** *** The priority classification *)

Lemma updatePriority_range c :
  updatePriority c = updatePriorityNormal
  ∨ updatePriority c = updatePriorityDecommissionRequested
  ∨ updatePriority c = updatePriorityAlreadyUpdating.
Proof.
  unfold updatePriority.
  destruct (_ && _); [tauto |]. destruct (String.eqb _ _); tauto.
Qed.

(** *** The scan of [SelectNext] *)

Lemma precedes_refl e : precedes e e.
Proof. right. split; [done | lia]. Qed.

Lemma precedes_trans e1 e2 e3 : precedes e1 e2 → precedes e2 e3 → precedes e1 e3.
Proof. unfold precedes. lia. Qed.

Lemma select_step_scanned seen st e :
  scanned seen st → scanned (seen ++ [e]) (select_step st e).
Proof.
  destruct st as [next p]. unfold scanned, select_step. simpl.
  destruct (processing e.2) eqn:Hproc; simpl.
  - destruct next as [n|].
    + intros (Hin & Hn & Hp & Hall). repeat split; try done.
      * set_solver.
      * intros e' [He' | ->%list_elem_of_singleton]%elem_of_app Hf;
          [by apply Hall | congruence].
    + intros Hall e' [He' | ->%list_elem_of_singleton]%elem_of_app; auto.
  - destruct next as [n|].
    + intros (Hin & Hn & Hp & Hall).
      destruct ((p <? _) || _) eqn:Hcmp; simpl.
      * repeat split; try done; [set_solver |].
        assert (precedes e n) as Hen.
        { unfold precedes, Before in *. subst p.
          apply orb_true_iff in Hcmp as [Hlt | [Heq Hbef]%andb_true_iff]; lia. }
        intros e' [He' | ->%list_elem_of_singleton]%elem_of_app Hf.
        -- eapply precedes_trans; [exact Hen | by apply Hall].
        -- apply precedes_refl.
      * repeat split; try done; [set_solver |].
        intros e' [He' | ->%list_elem_of_singleton]%elem_of_app Hf;
          [by apply Hall |].
        unfold precedes, Before in *. subst p.
        apply orb_false_iff in Hcmp as [Hlt Hand].
        apply andb_false_iff in Hand. lia.
    + intros Hall. repeat split; try done; [set_solver |].
      intros e' [He' | ->%list_elem_of_singleton]%elem_of_app Hf.
      * apply Hall in He'. congruence.
      * apply precedes_refl.
Qed.

Lemma select_fold_scanned order seen st :
  scanned seen st → scanned (seen ++ order) (foldl select_step st order).
Proof.
  revert seen st. induction order as [|e order IH]; intros seen st Hst; simpl.
  - by rewrite app_nil_r.
  - replace (seen ++ e :: order) with ((seen ++ [e]) ++ order)
      by (by rewrite <- app_assoc).
    apply IH, select_step_scanned, Hst.
Qed.

Lemma select_loop_scanned order : scanned order (select_loop order).
Proof. apply (select_fold_scanned order []). simpl. intros e He. inversion He. Qed.

Lemma elem_of_range_order m order id ci :
  range_order m order → (id, ci) ∈ order ↔ m !! id = Some ci.
Proof. unfold range_order. intros ->. apply elem_of_map_to_list. Qed.

Lemma SelectNext_Some order cl c cl' :
  range_order (clusters cl) order →
  SelectNext order cl = (Some c, cl') →
  ∃ id ci,
    clusters cl !! id = Some ci ∧ processing ci = false
    ∧ c = cluster ci ∧ cl' = marked id ci cl
    ∧ ∀ id' ci', clusters cl !! id' = Some ci' → processing ci' = false →
                 precedes (id, ci) (id', ci').
Proof.
  intros Hord Hsel. unfold SelectNext in Hsel.
  pose proof (select_loop_scanned order) as Hsc. unfold scanned in Hsc.
  destruct (select_loop order).1 as [[id ci]|]; [| congruence].
  destruct Hsc as (Hin & Hproc & _ & Hall).
  injection Hsel as <- <-. exists id, ci. repeat split; try done.
  - by apply (elem_of_range_order _ order).
  - intros id' ci' Hl Hf. apply Hall; [| done].
    by apply (elem_of_range_order (clusters cl)).
Qed.

Lemma SelectNext_None order cl cl' :
  range_order (clusters cl) order →
  SelectNext order cl = (None, cl') →
  cl' = cl ∧ ∀ id ci, clusters cl !! id = Some ci → processing ci = true.
Proof.
  intros Hord Hsel. unfold SelectNext in Hsel.
  pose proof (select_loop_scanned order) as Hsc. unfold scanned in Hsc.
  destruct (select_loop order).1 as [[id ci]|]; [congruence |].
  injection Hsel as <-. split; [done |].
  intros id ci Hl. apply (Hsc (id, ci)).
  by apply (elem_of_range_order (clusters cl)).
Qed.

Lemma SelectNext_eligible order cl id ci :
  range_order (clusters cl) order →
  clusters cl !! id = Some ci → processing ci = false →
  ∃ c cl', SelectNext order cl = (Some c, cl').
Proof.
  intros Hord Hl Hf.
  destruct (SelectNext order cl) as [[c|] cl'] eqn:Hsel; [by eauto |].
  apply SelectNext_None in Hsel as [_ Hall]; [| done].
  apply Hall in Hl. congruence.
Qed.

(** *** The second loop of [UpdateAvailable] *)

Lemma evict_step_lookup (ids : gmap string bool) m e k :
  evict_step ids m e !! k =
    if bool_decide (e.1 = k) && negb (processing e.2)
       && bool_decide (ids !! e.1 = None)
    then None else m !! k.
Proof.
  unfold evict_step. destruct (processing e.2); simpl.
  { by rewrite andb_false_r. }
  rewrite andb_true_r.
  destruct (ids !! e.1) as [b|] eqn:Hid; simpl.
  { by rewrite andb_false_r. }
  rewrite andb_true_r. case_bool_decide as Hk.
  - subst k. apply lookup_delete_eq.
  - by apply lookup_delete_ne.
Qed.

Lemma evict_fold_lookup (ids : gmap string bool) order m k :
  foldl (evict_step ids) m order !! k =
    if existsb (λ e, bool_decide (e.1 = k) && negb (processing e.2)
                     && bool_decide (ids !! e.1 = None)) order
    then None else m !! k.
Proof.
  revert m. induction order as [|e order IH]; intros m; simpl; [done |].
  rewrite IH, evict_step_lookup.
  destruct (bool_decide (e.1 = k) && _ && _); simpl; [| done].
  by destruct (existsb _ order).
Qed.

(** Whatever the order of the visit, the loop keeps exactly the entries
    that are processing or whose key is in [availableClusterIds]. *)
Lemma evict_loop_lookup (ids : gmap string bool) m order k :
  range_order m order →
  foldl (evict_step ids) m order !! k =
    match m !! k with
    | Some ci => if processing ci || bool_decide (is_Some (ids !! k))
                 then Some ci else None
    | None => None
    end.
Proof.
  intros Hord. rewrite evict_fold_lookup.
  destruct (existsb _ order) eqn:Hex.
  - apply existsb_exists in Hex as ([id ci] & Hin & Hc). simpl in Hc.
    apply list_elem_of_In, (elem_of_range_order m) in Hin; [| done].
    apply andb_true_iff in Hc as [[Hk Hp]%andb_true_iff Hi].
    apply bool_decide_eq_true in Hk, Hi. subst k. rewrite Hin.
    apply negb_true_iff in Hp. by rewrite Hp, Hi.
  - destruct (m !! k) as [ci|] eqn:Hl; [| done].
    destruct (processing ci || _) eqn:Hkeep; [done |]. exfalso.
    apply orb_false_iff in Hkeep as [Hp Hi]. apply bool_decide_eq_false in Hi.
    assert (existsb (λ e, bool_decide (e.1 = k) && negb (processing e.2)
                          && bool_decide (ids !! e.1 = None)) order = true)
      as Hyes; [| congruence].
    apply existsb_exists. exists (k, ci). split.
    + by apply list_elem_of_In, (elem_of_range_order m).
    + simpl. rewrite Hp, bool_decide_eq_true_2 by done. simpl.
      apply bool_decide_eq_true. destruct (ids !! k) eqn:E; [| done].
      exfalso. apply Hi. eauto.
Qed.

Lemma evict_loop_order_irrelevant (ids : gmap string bool) m order order' :
  range_order m order → range_order m order' →
  foldl (evict_step ids) m order = foldl (evict_step ids) m order'.
Proof.
  intros Ho Ho'. apply map_eq. intros k.
  by rewrite !evict_loop_lookup.
Qed.

(** *** The first loop of [UpdateAvailable] *)

Lemma ingest_step_rejected f st c :
  accepted f c = false → ingest_step f st c = st.
Proof.
  unfold accepted, ingest_step. destruct st as [ids m].
  destruct (bool_decide _); [done |]. simpl. by intros ->.
Qed.

Lemma ingest_step_accepted f (ids : gmap string bool) m c :
  accepted f c = true →
  ingest_step f (ids, m) c =
    (<[ID c := true]> ids,
     match m !! ID c with
     | Some existing =>
         if negb (processing existing)
         then <[ID c := set_cluster c existing]> m else m
     | None => <[ID c := mkClusterInfo (time_Unix 0 0) false c]> m
     end).
Proof.
  unfold accepted, ingest_step.
  destruct (bool_decide _); [done |]. simpl. by intros ->.
Qed.

(** A record that is rejected, or accepted under another ID, leaves the
    key [k] alone in both maps. *)
Lemma ingest_step_other f (ids : gmap string bool) m c k :
  (accepted f c = true → ID c ≠ k) →
  (ingest_step f (ids, m) c).1 !! k = ids !! k
  ∧ (ingest_step f (ids, m) c).2 !! k = m !! k.
Proof.
  intros Hk. destruct (accepted f c) eqn:Hacc.
  - specialize (Hk eq_refl). rewrite ingest_step_accepted by done. simpl.
    split; [by rewrite lookup_insert_ne |].
    destruct (m !! ID c) as [ex|]; [destruct (negb _) |];
      by rewrite ?lookup_insert_ne.
  - by rewrite ingest_step_rejected.
Qed.

Lemma ingest_fold_other f avail (ids : gmap string bool) m k :
  (∀ c, c ∈ avail → accepted f c = true → ID c ≠ k) →
  (foldl (ingest_step f) (ids, m) avail).1 !! k = ids !! k
  ∧ (foldl (ingest_step f) (ids, m) avail).2 !! k = m !! k.
Proof.
  revert ids m. induction avail as [|c avail IH]; intros ids m Hk; cbn [foldl]; [done |].
  destruct (ingest_step_other f ids m c k) as [Hi Hm].
  { apply Hk. constructor. }
  destruct (ingest_step f (ids, m) c) as [ids' m']. simpl in *.
  rewrite <- Hi, <- Hm. apply IH. intros c' Hc'. apply Hk. by constructor.
Qed.

(** An entry that is processing is not written by the first loop. *)
Lemma ingest_step_processing f (ids : gmap string bool) m c k ci :
  m !! k = Some ci → processing ci = true →
  (ingest_step f (ids, m) c).2 !! k = Some ci.
Proof.
  intros Hl Hp. destruct (accepted f c) eqn:Hacc.
  - rewrite ingest_step_accepted by done. simpl.
    destruct (decide (ID c = k)) as [-> | Hne].
    + by rewrite Hl, Hp.
    + destruct (m !! ID c) as [ex|]; [destruct (negb _) |];
        by rewrite ?lookup_insert_ne.
  - by rewrite ingest_step_rejected.
Qed.

Lemma ingest_fold_processing f avail (ids : gmap string bool) m k ci :
  m !! k = Some ci → processing ci = true →
  (foldl (ingest_step f) (ids, m) avail).2 !! k = Some ci.
Proof.
  revert ids m. induction avail as [|c avail IH]; intros ids m Hl Hp; cbn [foldl]; [done |].
  pose proof (ingest_step_processing f ids m c k ci Hl Hp) as Hs.
  destruct (ingest_step f (ids, m) c) as [ids' m']. by apply IH.
Qed.

Lemma ingest_step_keyed f (ids : gmap string bool) m c :
  keyed m → keyed (ingest_step f (ids, m) c).2.
Proof.
  intros Hm. destruct (accepted f c) eqn:Hacc.
  - rewrite ingest_step_accepted by done. simpl.
    destruct (m !! ID c) as [ex|] eqn:Hex; [destruct (negb _) |]; try done.
    all: intros k ci; rewrite lookup_insert; case_decide; [| by apply Hm].
    all: by intros [= <-].
  - by rewrite ingest_step_rejected.
Qed.

Lemma ingest_fold_keyed f avail (ids : gmap string bool) m :
  keyed m → keyed (foldl (ingest_step f) (ids, m) avail).2.
Proof.
  revert ids m. induction avail as [|c avail IH]; intros ids m Hm; cbn [foldl]; [done |].
  pose proof (ingest_step_keyed f ids m c Hm) as Hs.
  destruct (ingest_step f (ids, m) c) as [ids' m']. by apply IH.
Qed.

(** *** [UpdateAvailable] as a whole *)

Lemma UpdateAvailable_in_lookup ord avail cl k :
  (∀ m, range_order m (ord m)) →
  clusters (UpdateAvailable_in ord avail cl) !! k =
    let st := foldl (ingest_step (accountFilter cl)) (∅, clusters cl) avail in
    match st.2 !! k with
    | Some ci => if processing ci || bool_decide (is_Some (st.1 !! k))
                 then Some ci else None
    | None => None
    end.
Proof.
  intros Hord. unfold UpdateAvailable_in.
  destruct (foldl _ _ avail) as [ids m]. simpl. by apply evict_loop_lookup.
Qed.

Lemma UpdateAvailable_in_order ord avail cl :
  (∀ m, range_order m (ord m)) →
  UpdateAvailable_in ord avail cl = UpdateAvailable avail cl.
Proof.
  intros Hord. unfold UpdateAvailable, UpdateAvailable_in.
  destruct (foldl _ _ avail) as [ids m]. f_equal.
  apply evict_loop_order_irrelevant; [done | by unfold range_order].
Qed.

Lemma UpdateAvailable_lookup avail cl k :
  clusters (UpdateAvailable avail cl) !! k =
    let st := foldl (ingest_step (accountFilter cl)) (∅, clusters cl) avail in
    match st.2 !! k with
    | Some ci => if processing ci || bool_decide (is_Some (st.1 !! k))
                 then Some ci else None
    | None => None
    end.
Proof. apply UpdateAvailable_in_lookup. by unfold range_order. Qed.

Lemma UpdateAvailable_accountFilter avail cl :
  accountFilter (UpdateAvailable avail cl) = accountFilter cl.
Proof.
  unfold UpdateAvailable, UpdateAvailable_in. by destruct (foldl _ _ avail).
Qed.

Lemma UpdateAvailable_processing avail cl k ci :
  clusters cl !! k = Some ci → processing ci = true →
  clusters (UpdateAvailable avail cl) !! k = Some ci.
Proof.
  intros Hl Hp. rewrite UpdateAvailable_lookup. simpl.
  rewrite (ingest_fold_processing _ avail ∅ _ k ci Hl Hp). by rewrite Hp.
Qed.

(** A key under which the input has no accepted record survives exactly
    when its entry is processing. *)
Lemma UpdateAvailable_unaccepted avail cl k :
  (∀ c, c ∈ avail → accepted (accountFilter cl) c = true → ID c ≠ k) →
  clusters (UpdateAvailable avail cl) !! k =
    match clusters cl !! k with
    | Some ci => if processing ci then Some ci else None
    | None => None
    end.
Proof.
  intros Hk. rewrite UpdateAvailable_lookup. simpl.
  destruct (ingest_fold_other (accountFilter cl) avail ∅ (clusters cl) k Hk)
    as [-> ->].
  rewrite lookup_empty. destruct (clusters cl !! k) as [ci|]; [| done].
  rewrite bool_decide_eq_false_2 by (by intros [? ?]).
  by rewrite orb_false_r.
Qed.

Lemma UpdateAvailable_keyed avail cl :
  keyed (clusters cl) → keyed (clusters (UpdateAvailable avail cl)).
Proof.
  intros Hm k ci. rewrite UpdateAvailable_lookup. simpl.
  pose proof (ingest_fold_keyed (accountFilter cl) avail ∅ _ Hm k) as Hk.
  destruct (_ !! k) as [ci'|]; [| done].
  destruct (_ || _); [| done]. intros [= <-]. by apply Hk.
Qed.

(** *** [ClusterProcessed] *)

Lemma ClusterProcessed_lookup id now cl k :
  clusters (ClusterProcessed id now cl) !! k =
    if decide (id = k)
    then (λ ci, mkClusterInfo now false (cluster ci)) <$> clusters cl !! k
    else clusters cl !! k.
Proof.
  unfold ClusterProcessed. destruct (clusters cl !! id) as [ci|] eqn:Hl; simpl.
  - rewrite lookup_insert. case_decide; [| done]. subst k. by rewrite Hl.
  - case_decide; [| done]. subst k. by rewrite Hl.
Qed.

Lemma ClusterProcessed_keyed id now cl :
  keyed (clusters cl) → keyed (clusters (ClusterProcessed id now cl)).
Proof.
  intros Hm k ci. rewrite ClusterProcessed_lookup. case_decide; [| by apply Hm].
  destruct (clusters cl !! k) as [ci'|] eqn:Hl; [| done].
  simpl. intros [= <-]. exact (Hm _ _ Hl).
Qed.

(** *** Histories *)

Lemma marked_lookup id ci cl k :
  clusters (marked id ci cl) !! k =
    if decide (id = k) then Some (set_processing true ci) else clusters cl !! k.
Proof. unfold marked. simpl. apply lookup_insert. Qed.

Lemma step_keyed cl (c : call) r cl' :
  step cl c r cl' → keyed (clusters cl) → keyed (clusters cl').
Proof.
  intros Hstep Hm. destruct Hstep as [cl avail | cl order r cl' Hord Hsel | cl id now].
  - by apply UpdateAvailable_keyed.
  - destruct r as [c'|].
    + apply SelectNext_Some in Hsel as (id & ci & Hl & _ & _ & -> & _); [| done].
      intros k ci'. rewrite marked_lookup. case_decide; [| by apply Hm].
      intros [= <-]. subst k. exact (Hm _ _ Hl).
    + by apply SelectNext_None in Hsel as [-> _].
  - by apply ClusterProcessed_keyed.
Qed.

Lemma exec_keyed cl evs cl' :
  exec cl evs cl' → keyed (clusters cl) → keyed (clusters cl').
Proof. induction 1; eauto using step_keyed. Qed.

Lemma exec_app_inv cl evs1 evs2 cl' :
  exec cl (evs1 ++ evs2) cl' →
  ∃ cl0, exec cl evs1 cl0 ∧ exec cl0 evs2 cl'.
Proof.
  revert cl. induction evs1 as [|e evs1 IH]; intros cl Hex; simpl in *.
  - exists cl. split; [constructor | done].
  - inversion Hex as [| ? c r cl1 ? ? Hstep Hrest]; subst.
    destruct (IH _ Hrest) as (cl0 & H1 & H2).
    exists cl0. split; [by econstructor | done].
Qed.

Lemma replay_exec cl calls : exec cl (replay cl calls).1 (replay cl calls).2.
Proof.
  revert cl. induction calls as [|c calls IH]; intros cl; simpl; [constructor |].
  destruct c as [avail | | id now].
  - specialize (IH (UpdateAvailable avail cl)).
    destruct (replay _ calls) as [evs cl'']. simpl in *.
    econstructor; [constructor | done].
  - destruct (SelectNext _ cl) as [r cl'] eqn:Hsel. specialize (IH cl').
    destruct (replay _ calls) as [evs cl'']. simpl in *.
    apply exec_cons with cl'; [| done].
    apply (step_SelectNext cl (map_to_list (clusters cl))); [| exact Hsel].
    unfold range_order. reflexivity.
  - specialize (IH (ClusterProcessed id now cl)).
    destruct (replay _ calls) as [evs cl'']. simpl in *.
    econstructor; [constructor | done].
Qed.

(** An entry that is processing stays as it is through every call but
    [ClusterProcessed] for its ID. *)
Lemma step_held cl (c : call) r cl' id ci :
  step cl c r cl' →
  clusters cl !! id = Some ci → processing ci = true →
  (∃ now, c = CallClusterProcessed id now ∧ r = None)
  ∨ clusters cl' !! id = Some ci.
Proof.
  intros Hstep Hl Hp.
  destruct Hstep as [cl avail | cl order r cl' Hord Hsel | cl id' now].
  - right. by apply UpdateAvailable_processing.
  - right. destruct r as [c'|].
    + apply SelectNext_Some in Hsel as (id' & ci' & Hl' & Hf & _ & -> & _); [| done].
      rewrite marked_lookup. case_decide; [| done]. subst id'. congruence.
    + by apply SelectNext_None in Hsel as [-> _].
  - destruct (decide (id' = id)) as [-> | Hne]; [left; by eauto |].
    right. rewrite ClusterProcessed_lookup. by case_decide.
Qed.

Lemma exec_held cl evs cl' id ci :
  exec cl evs cl' →
  clusters cl !! id = Some ci → processing ci = true →
  (∃ now, (CallClusterProcessed id now, None) ∈ evs)
  ∨ clusters cl' !! id = Some ci.
Proof.
  intros Hex. induction Hex as [cl | cl c r cl1 evs cl2 Hstep Hrest IH];
    intros Hl Hp; [by right |].
  destruct (step_held _ _ _ _ id ci Hstep Hl Hp) as [(now & -> & ->) | Hl1].
  - left. exists now. constructor.
  - destruct (IH Hl1 Hp) as [(now & Hin) | Hl2]; [left | by right].
    exists now. by constructor.
Qed.

(** The entry a successful [SelectNext] returns, seen from its caller. *)
Lemma step_SelectNext_Some cl c cl' :
  keyed (clusters cl) →
  step cl CallSelectNext (Some c) cl' →
  ∃ ci, clusters cl !! ID c = Some ci ∧ processing ci = false
        ∧ cluster ci = c
        ∧ clusters cl' !! ID c = Some (set_processing true ci).
Proof.
  intros Hm Hstep. inversion Hstep as [| ? order ? ? Hord Hsel |]; subst.
  apply SelectNext_Some in Hsel as (id & ci & Hl & Hf & -> & -> & _); [| done].
  rewrite (Hm _ _ Hl). exists ci. repeat split; try done.
  rewrite marked_lookup. by case_decide.
Qed.

Lemma keyed_empty : keyed ∅.
Proof. intros k ci. by rewrite lookup_empty. Qed.

Lemma updatePriority_mid_update c :
  mid_update c ↔ updatePriority c = updatePriorityAlreadyUpdating.
Proof.
  unfold mid_update, updatePriority.
  destruct (String.eqb_spec (NextVersion (Status c)) "") as [He | He];
    destruct (String.eqb_spec (NextVersion (Status c))
                (CurrentVersion (Status c))) as [Hc | Hc]; simpl;
    try destruct (String.eqb _ _); split; try done; tauto.
Qed.

Lemma updatePriority_decommission_requested c :
  decommission_requested c
  ↔ updatePriority c = updatePriorityDecommissionRequested.
Proof.
  unfold decommission_requested. rewrite updatePriority_mid_update.
  unfold updatePriority. destruct (_ && _).
  - split; [tauto | done].
  - destruct (String.eqb_spec (LifecycleStatus c) statusDecommissionRequested);
      split; try done; tauto.
Qed.

Lemma updatePriority_normal c :
  normal c ↔ updatePriority c = updatePriorityNormal.
Proof.
  unfold normal. rewrite updatePriority_mid_update.
  unfold updatePriority. destruct (_ && _).
  - split; [tauto | done].
  - destruct (String.eqb_spec (LifecycleStatus c) statusDecommissionRequested);
      split; try done; tauto.
Qed.

(** *** Single ownership *)

(** C1.  In every history of [UpdateAvailable], [SelectNext] and
    [ClusterProcessed] calls that starts from the empty registry: when
    two [SelectNext] calls return clusters with the same ID, a
    [ClusterProcessed] call for that ID lies between them; and, in the
    state such a history reaches, the cluster a [SelectNext] returns has
    a registry entry whose [processing] flag is false before the call and
    true after it. *)
Theorem single_ownership f evs cl :
  exec (NewClusterList f) evs cl →
  (∀ pre c1 mid c2 post,
      evs = pre ++ (CallSelectNext, Some c1) :: mid
                ++ (CallSelectNext, Some c2) :: post →
      ID c1 = ID c2 →
      ∃ now, (CallClusterProcessed (ID c1) now, None) ∈ mid)
  ∧ (∀ c cl',
      step cl CallSelectNext (Some c) cl' →
      ∃ ci, clusters cl !! ID c = Some ci ∧ processing ci = false
            ∧ cluster ci = c
            ∧ clusters cl' !! ID c = Some (set_processing true ci)).
Proof.
  intros Hex. split.
  - intros pre c1 mid c2 post -> Hid.
    apply exec_app_inv in Hex as (cl0 & Hpre & Hex).
    inversion Hex as [| ? ? ? cl1 ? ? Hsel1 Hex1]; subst.
    apply exec_app_inv in Hex1 as (cl2 & Hmid & Hex2).
    inversion Hex2 as [| ? ? ? cl3 ? ? Hsel2 _]; subst.
    assert (keyed (clusters cl0)) as Hk0
      by (eapply exec_keyed; [exact Hpre | apply keyed_empty]).
    assert (keyed (clusters cl2)) as Hk2
      by (eapply exec_keyed; [exact Hmid |]; by eapply step_keyed).
    apply step_SelectNext_Some in Hsel1 as (ci1 & _ & _ & _ & Hl1); [| done].
    apply step_SelectNext_Some in Hsel2 as (ci2 & Hl2 & Hf2 & _ & _); [| done].
    destruct (exec_held _ _ _ (ID c1) _ Hmid Hl1 eq_refl) as [Hcp | Hheld];
      [done |].
    rewrite <- Hid in Hl2. rewrite Hheld in Hl2.
    injection Hl2 as <-. discriminate Hf2.
  - intros c cl' Hstep. apply step_SelectNext_Some; [| done].
    eapply exec_keyed; [exact Hex | apply keyed_empty].
Qed.

(** *** Priority and recency *)

(** C2.  The cluster [SelectNext] returns comes from an entry that is not
    processing, and no entry that is not processing has a higher
    priority; the priority is the highest of the three exactly for a cluster
    in the middle of an update, the middle one exactly for a cluster whose
    decommissioning is requested and that is not in the middle of an update,
    and the lowest exactly for the others.  When the entries that are not processing are a normal
    cluster, a decommission-requested one and a mid-update one, three
    [SelectNext] calls in a row return the mid-update cluster, then the
    decommission-requested one, then the normal one, whatever the order
    in which the map is visited and whatever the [lastProcessed]
    values. *)
Theorem priority_ordering cl :
  (∀ order c cl',
      range_order (clusters cl) order →
      SelectNext order cl = (Some c, cl') →
      ∃ id ci, eligible cl id ci ∧ cluster ci = c
        ∧ ∀ id' ci', eligible cl id' ci' →
                     updatePriority (cluster ci') ≤ updatePriority c)
  ∧ (∀ c, (mid_update c ↔ updatePriority c = updatePriorityAlreadyUpdating)
          ∧ (decommission_requested c
             ↔ updatePriority c = updatePriorityDecommissionRequested)
          ∧ (normal c ↔ updatePriority c = updatePriorityNormal))
  ∧ updatePriorityNormal < updatePriorityDecommissionRequested
    < updatePriorityAlreadyUpdating
  ∧ (∀ (a b c : string) ia ib ic r1 r2 r3 cl',
      eligible cl a ia → eligible cl b ib → eligible cl c ic →
      normal (cluster ia) → decommission_requested (cluster ib) →
      mid_update (cluster ic) →
      (∀ k ci, eligible cl k ci → k = a ∨ k = b ∨ k = c) →
      exec cl [(CallSelectNext, r1); (CallSelectNext, r2); (CallSelectNext, r3)]
           cl' →
      r1 = Some (cluster ic) ∧ r2 = Some (cluster ib) ∧ r3 = Some (cluster ia)).
Proof.
  split; [| split; [| split; [done |]]].
  - intros order c cl' Hord Hsel.
    apply SelectNext_Some in Hsel as (id & ci & Hl & Hf & -> & _ & Hall); [| done].
    exists id, ci. repeat split; try done.
    intros id' ci' [Hl' Hf']. specialize (Hall id' ci' Hl' Hf').
    unfold precedes in Hall. simpl in Hall. lia.
  - intros c. split; [| split].
    + apply updatePriority_mid_update.
    + apply updatePriority_decommission_requested.
    + apply updatePriority_normal.
  - intros a b c ia ib ic r1 r2 r3 cl' [Ha Hfa] [Hb Hfb] [Hc Hfc] Hna Hdb Hmc
      Honly Hex.
    apply updatePriority_normal in Hna.
    apply updatePriority_decommission_requested in Hdb.
    apply updatePriority_mid_update in Hmc.
    unfold updatePriorityNormal in Hna.
    unfold updatePriorityDecommissionRequested in Hdb.
    unfold updatePriorityAlreadyUpdating in Hmc.
    assert (a ≠ b ∧ a ≠ c ∧ b ≠ c) as (Hab & Hac & Hbc).
    { repeat split; intros ->; congruence. }
    inversion Hex as [| ? ? ? cl1 ? ? Hs1 Hex1]; subst.
    inversion Hex1 as [| ? ? ? cl2 ? ? Hs2 Hex2]; subst.
    inversion Hex2 as [| ? ? ? cl3 ? ? Hs3 _]; subst.
    (* first call *)
    inversion Hs1 as [| ? o1 ? ? Ho1 Hsel1 |]; subst.
    destruct r1 as [c1|];
      [| apply SelectNext_None in Hsel1 as [_ Hall]; [| done];
         apply Hall in Hc; congruence].
    apply SelectNext_Some in Hsel1 as (k1 & i1 & Hl1 & Hf1 & -> & -> & Hall1);
      [| done].
    assert (k1 = c) as ->.
    { specialize (Hall1 c ic Hc Hfc). unfold precedes in Hall1. simpl in Hall1.
      destruct (Honly k1 i1 (conj Hl1 Hf1)) as [-> | [-> | ->]]; [| | done];
        simplify_eq; lia. }
    replace i1 with ic in * by congruence. clear Hl1 Hf1 Hall1.
    (* second call *)
    inversion Hs2 as [| ? o2 ? ? Ho2 Hsel2 |]; subst.
    assert (clusters (marked c ic cl) !! b = Some ib) as Hb1
      by (rewrite marked_lookup; by case_decide).
    assert (clusters (marked c ic cl) !! a = Some ia) as Ha1
      by (rewrite marked_lookup; by case_decide).
    destruct r2 as [c2|];
      [| apply SelectNext_None in Hsel2 as [_ Hall]; [| done];
         apply Hall in Hb1; congruence].
    apply SelectNext_Some in Hsel2 as (k2 & i2 & Hl2 & Hf2 & -> & -> & Hall2);
      [| done].
    assert (k2 = b) as ->.
    { specialize (Hall2 b ib Hb1 Hfb). unfold precedes in Hall2. simpl in Hall2.
      rewrite marked_lookup in Hl2. case_decide as Hk; [by simplify_eq |].
      destruct (Honly k2 i2 (conj Hl2 Hf2)) as [-> | [-> | ->]]; [| done | done].
      simplify_eq. lia. }
    replace i2 with ib in * by congruence. clear Hl2 Hf2 Hall2.
    (* third call *)
    inversion Hs3 as [| ? o3 ? ? Ho3 Hsel3 |]; subst.
    assert (clusters (marked b ib (marked c ic cl)) !! a = Some ia) as Ha2
      by (rewrite marked_lookup; by case_decide).
    destruct r3 as [c3|];
      [| apply SelectNext_None in Hsel3 as [_ Hall]; [| done];
         apply Hall in Ha2; congruence].
    apply SelectNext_Some in Hsel3 as (k3 & i3 & Hl3 & Hf3 & -> & -> & _);
      [| done].
    assert (k3 = a) as ->.
    { rewrite marked_lookup in Hl3. case_decide as Hk; [by simplify_eq |].
      rewrite marked_lookup in Hl3. case_decide as Hk'; [by simplify_eq |].
      by destruct (Honly k3 i3 (conj Hl3 Hf3)) as [-> | [-> | ->]]. }
    replace i3 with ia in * by congruence. done.
Qed.

(** C3.  The cluster [SelectNext] returns comes from an entry that is not
    processing, and no entry that is not processing and has the same
    priority was processed strictly earlier.  When the only entries that
    are not processing are two normal clusters, [SelectNext] returns the
    one with the older [lastProcessed] and marks its entry. *)
Theorem fairness_tie_break cl :
  (∀ order c cl',
      range_order (clusters cl) order →
      SelectNext order cl = (Some c, cl') →
      ∃ id ci, eligible cl id ci ∧ cluster ci = c
        ∧ ∀ id' ci', eligible cl id' ci' →
            updatePriority (cluster ci') = updatePriority c →
            Before (lastProcessed ci') (lastProcessed ci) = false)
  ∧ (∀ (a b : string) ia ib order,
      eligible cl a ia → eligible cl b ib →
      normal (cluster ia) → normal (cluster ib) →
      lastProcessed ia < lastProcessed ib →
      (∀ k ci, eligible cl k ci → k = a ∨ k = b) →
      range_order (clusters cl) order →
      SelectNext order cl = (Some (cluster ia), marked a ia cl)).
Proof.
  split.
  - intros order c cl' Hord Hsel.
    apply SelectNext_Some in Hsel as (id & ci & Hl & Hf & -> & _ & Hall); [| done].
    exists id, ci. repeat split; try done.
    intros id' ci' [Hl' Hf'] Heq. specialize (Hall id' ci' Hl' Hf').
    unfold precedes in Hall. simpl in Hall. unfold Before. lia.
  - intros a b ia ib order [Ha Hfa] [Hb Hfb] Hna Hnb Hlt Honly Hord.
    apply updatePriority_normal in Hna, Hnb.
    destruct (SelectNext order cl) as [[c'|] cl'] eqn:Hsel;
      [| apply SelectNext_None in Hsel as [_ Hall]; [| done];
         apply Hall in Ha; congruence].
    apply SelectNext_Some in Hsel as (k & i & Hl & Hf & -> & -> & Hall); [| done].
    destruct (Honly k i (conj Hl Hf)) as [-> | ->]; simplify_eq; [done |].
    specialize (Hall a ia Ha Hfa). unfold precedes in Hall. simpl in Hall. lia.
Qed.

(** *** Reconciliation *)

(** C4, as amended.  A cluster that the input of [UpdateAvailable] gives
    as decommissioned, and whose ID no record of the input carries past
    both filters, is in the registry after the call exactly when it was
    there before with [processing] true, and then with the same entry: it
    is never newly tracked, and an entry that is not processing is
    removed. *)
Theorem decommission_filtering avail cl c :
  c ∈ avail →
  LifecycleStatus c = statusDecommissioned →
  (∀ c', c' ∈ avail → accepted (accountFilter cl) c' = true → ID c' ≠ ID c) →
  ∀ ci, clusters (UpdateAvailable avail cl) !! ID c = Some ci
        ↔ clusters cl !! ID c = Some ci ∧ processing ci = true.
Proof.
  intros _ _ Hother ci. rewrite UpdateAvailable_unaccepted by done.
  destruct (clusters cl !! ID c) as [ci'|]; [destruct (processing ci') eqn:Hp |].
  - split; [by intros [= <-] | by intros [[= <-] _]].
  - split; [done | intros [[= <-] Hp']; congruence].
  - split; [done | by intros [? _]].
Qed.

(** C5.  An entry that is processing is still there, unchanged, after
    [UpdateAvailable], whatever the input; an entry whose ID is not in
    the input is gone after [UpdateAvailable] exactly when it is not
    processing; and once [ClusterProcessed] has been called for an entry
    that was kept this way, the next [UpdateAvailable] whose input still
    lacks the ID removes it. *)
Theorem retention_under_omission cl id ci :
  clusters cl !! id = Some ci →
  (∀ avail, processing ci = true →
            clusters (UpdateAvailable avail cl) !! id = Some ci)
  ∧ (∀ avail, (∀ c, c ∈ avail → ID c ≠ id) →
              (clusters (UpdateAvailable avail cl) !! id = None
               ↔ processing ci = false))
  ∧ (∀ avail now avail',
        processing ci = true →
        (∀ c, c ∈ avail' → ID c ≠ id) →
        clusters (UpdateAvailable avail'
                    (ClusterProcessed id now (UpdateAvailable avail cl))) !! id
        = None).
Proof.
  intros Hl. split; [| split].
  - intros avail Hp. by apply UpdateAvailable_processing.
  - intros avail Hno. rewrite UpdateAvailable_unaccepted by (intros; by apply Hno).
    rewrite Hl. by destruct (processing ci).
  - intros avail now avail' Hp Hno.
    rewrite UpdateAvailable_unaccepted by (intros; by apply Hno).
    rewrite ClusterProcessed_lookup. case_decide; [| done].
    by rewrite (UpdateAvailable_processing avail cl id ci Hl Hp).
Qed.

(** C6.  [ClusterProcessed] returns a registry, with no error, in every
    state: an entry under the given ID gets [processing] false and
    [lastProcessed] the current time and keeps its cluster; every other
    entry, and the account filter, are unchanged; and when there is no
    entry under the ID the registry is unchanged. *)
Theorem ClusterProcessed_total id now cl :
  (∀ ci, clusters cl !! id = Some ci →
         clusters (ClusterProcessed id now cl) !! id
         = Some {| lastProcessed := now; processing := false;
                   cluster := cluster ci |})
  ∧ (∀ id', id' ≠ id →
            clusters (ClusterProcessed id now cl) !! id' = clusters cl !! id')
  ∧ accountFilter (ClusterProcessed id now cl) = accountFilter cl
  ∧ (clusters cl !! id = None → ClusterProcessed id now cl = cl).
Proof.
  repeat split.
  - intros ci Hl. rewrite ClusterProcessed_lookup. case_decide; [| done].
    by rewrite Hl.
  - intros id' Hne. rewrite ClusterProcessed_lookup. by case_decide.
  - unfold ClusterProcessed. by destruct (clusters cl !! id).
  - intros Hl. unfold ClusterProcessed. by rewrite Hl.
Qed.

(** C10.  A cluster that is in the middle of an update and whose
    decommissioning is requested gets the priority of a cluster in the
    middle of an update, the highest of the three, and so not the
    priority of a decommission request. *)
Theorem mid_update_tested_first c :
  mid_update c →
  LifecycleStatus c = statusDecommissionRequested →
  updatePriority c = updatePriorityAlreadyUpdating
  ∧ updatePriority c ≠ updatePriorityDecommissionRequested
  ∧ (∀ c', updatePriority c' ≤ updatePriority c)
  ∧ updatePriorityNormal < updatePriorityDecommissionRequested
    < updatePriorityAlreadyUpdating.
Proof.
  intros Hmid _. apply updatePriority_mid_update in Hmid. rewrite Hmid.
  repeat split; try done.
  intros c'. destruct (updatePriority_range c') as [-> | [-> | ->]]; done.
Qed.

End facts.

(** *** The properties on concrete registries *)

Section examples.
Import Examples.
#[local] Existing Instance statuses.

Lemma step_SelectNext_canonical cl :
  step cl CallSelectNext
       (SelectNext (map_to_list (clusters cl)) cl).1
       (SelectNext (map_to_list (clusters cl)) cl).2.
Proof.
  apply (step_SelectNext cl (map_to_list (clusters cl))).
  - unfold range_order. reflexivity.
  - by destruct (SelectNext _ cl).
Qed.

Lemma eligible_in_list cl id ci :
  eligible cl id ci → In (id, ci) (map_to_list (clusters cl)).
Proof. intros [Hl _]. by apply list_elem_of_In, elem_of_map_to_list. Qed.

Lemma single_ownership_witness :
  let evs := (replay empty select_twice).1 in
  exec empty evs (replay empty select_twice).2
  ∧ evs = [(CallUpdateAvailable [ready "x"], None)]
          ++ (CallSelectNext, Some (ready "x"))
          :: [(CallClusterProcessed "x" 1500000000000000000, None)]
          ++ (CallSelectNext, Some (ready "x")) :: []
  ∧ ∃ now, (CallClusterProcessed "x" now, None)
           ∈ [(CallClusterProcessed "x" 1500000000000000000, @None Cluster)].
Proof.
  pose proof (replay_exec empty select_twice) as Hex.
  split; [exact Hex |]. split; [vm_compute; reflexivity |].
  exact (proj1 (single_ownership allow_all _ _ Hex)
           [(CallUpdateAvailable [ready "x"], None)] (ready "x")
           [(CallClusterProcessed "x" 1500000000000000000, None)] (ready "x")
           [] eq_refl eq_refl).
Defined.

Lemma priority_ordering_witness :
  let first := SelectNext (map_to_list (clusters three_tiers)) three_tiers in
  let second := SelectNext (map_to_list (clusters first.2)) first.2 in
  let third := SelectNext (map_to_list (clusters second.2)) second.2 in
  first.1 = Some (updating "c")
  ∧ second.1 = Some (decommissionRequested "b")
  ∧ third.1 = Some (ready "a").
Proof.
  intros first second third.
  refine (proj2 (proj2 (proj2 (priority_ordering three_tiers))) "a" "b" "c"
            (mkClusterInfo 0 false (ready "a"))
            (mkClusterInfo 0 false (decommissionRequested "b"))
            (mkClusterInfo 0 false (updating "c")) first.1 second.1 third.1 third.2
            _ _ _ _ _ _ _ _).
  - split; vm_compute; reflexivity.
  - split; vm_compute; reflexivity.
  - split; vm_compute; reflexivity.
  - split; [intros [Hne _]; by apply Hne | discriminate].
  - split; [intros [Hne _]; by apply Hne | reflexivity].
  - split; discriminate.
  - intros k ci He. apply eligible_in_list in He. vm_compute in He.
    destruct He as [[= <- _] | [[= <- _] | [[= <- _] | []]]]; auto.
  - repeat (eapply exec_cons; [apply step_SelectNext_canonical |]).
    apply exec_nil.
Defined.

Lemma fairness_tie_break_witness :
  SelectNext (map_to_list (clusters two_normal)) two_normal
  = (Some (ready "a"), marked "a" (mkClusterInfo 10 false (ready "a")) two_normal).
Proof.
  refine (proj2 (fairness_tie_break two_normal) "a" "b"
            (mkClusterInfo 10 false (ready "a"))
            (mkClusterInfo 20 false (ready "b"))
            (map_to_list (clusters two_normal)) _ _ _ _ _ _ _).
  - split; vm_compute; reflexivity.
  - split; vm_compute; reflexivity.
  - split; [intros [Hne _]; by apply Hne | discriminate].
  - split; [intros [Hne _]; by apply Hne | discriminate].
  - simpl. lia.
  - intros k ci He. apply eligible_in_list in He. vm_compute in He.
    destruct He as [[= <- _] | [[= <- _] | []]]; auto.
  - unfold range_order. reflexivity.
Defined.

(** The claim C4 as the specification states it fails on an entry that
    is processing: the cluster ["x"] is selected, the next input gives it
    as decommissioned, and it is still in the registry. *)
Lemma decommissioned_in_flight_is_kept :
  decommissioned "x" ∈ [decommissioned "x"]
  ∧ LifecycleStatus (decommissioned "x") = statusDecommissioned
  ∧ clusters (UpdateAvailable [decommissioned "x"] in_flight_x) !! "x"
    = Some (mkClusterInfo 0 true (ready "x")).
Proof. split; [constructor |]. split; vm_compute; reflexivity. Qed.

Lemma decommission_filtering_witness :
  let ci := mkClusterInfo 0 false (ready "x") in
  decommissioned "x" ∈ [decommissioned "x"]
  ∧ LifecycleStatus (decommissioned "x") = statusDecommissioned
  ∧ (clusters (UpdateAvailable [decommissioned "x"] idle_x) !! "x" = Some ci
     ↔ clusters idle_x !! "x" = Some ci ∧ processing ci = true).
Proof.
  intros ci. split; [constructor |]. split; [reflexivity |].
  apply (decommission_filtering [decommissioned "x"] idle_x (decommissioned "x")).
  - constructor.
  - reflexivity.
  - intros c' Hc'. apply list_elem_of_singleton in Hc' as ->.
    vm_compute. discriminate.
Defined.

Lemma retention_under_omission_witness :
  clusters (UpdateAvailable [ready "y"] in_flight_x) !! "x"
  = Some (mkClusterInfo 0 true (ready "x"))
  ∧ clusters (UpdateAvailable []
                (ClusterProcessed "x" 1500000000000000000
                   (UpdateAvailable [ready "y"] in_flight_x))) !! "x" = None.
Proof.
  assert (clusters in_flight_x !! "x" = Some (mkClusterInfo 0 true (ready "x")))
    as Hl by (vm_compute; reflexivity).
  destruct (retention_under_omission in_flight_x "x" _ Hl) as (Hkeep & _ & Hdrop).
  split.
  - apply Hkeep. reflexivity.
  - apply Hdrop; [reflexivity |]. intros c Hc. inversion Hc.
Defined.

Lemma ClusterProcessed_total_witness :
  clusters (ClusterProcessed "x" 1500000000000000000 in_flight_x) !! "x"
  = Some (mkClusterInfo 1500000000000000000 false (ready "x"))
  ∧ ClusterProcessed "y" 1500000000000000000 in_flight_x = in_flight_x.
Proof.
  destruct (ClusterProcessed_total "x" 1500000000000000000 in_flight_x)
    as (Hset & _ & _ & _).
  destruct (ClusterProcessed_total "y" 1500000000000000000 in_flight_x)
    as (_ & _ & _ & Hnone).
  split.
  - apply (Hset (mkClusterInfo 0 true (ready "x"))). vm_compute. reflexivity.
  - apply Hnone. vm_compute. reflexivity.
Defined.

Lemma mid_update_tested_first_witness :
  updatePriority (updatingDecommissionRequested "x") = updatePriorityAlreadyUpdating
  ∧ updatePriority (updatingDecommissionRequested "x")
    ≠ updatePriorityDecommissionRequested.
Proof.
  destruct (mid_update_tested_first (updatingDecommissionRequested "x"))
    as (Hp & Hne & _).
  - split; discriminate.
  - reflexivity.
  - by split.
Defined.

End examples.
End ClusterListSpec.

(** * Properties of the config source *)

Module GitSpec.
Import golib channel.

(** *** The result of [FindStringSubmatch] *)

Section regexp.
Implicit Types (r : regexp) (s : string) (caps res : list string)
  (k : string → list string → option (list string)).

Lemma repeat_re_length once n fuel : ∀ s caps k res,
  (∀ s caps k res, keeps_length n k → List.length caps = n →
                   once s caps k = Some res → List.length res = n) →
  keeps_length n k → List.length caps = n →
  repeat_re once fuel s caps k = Some res → List.length res = n.
Proof.
  induction fuel as [|fuel IH]; intros s caps k res Honce Hk Hlen; [done |].
  cbn [repeat_re]. apply Honce; [| done]. intros s' caps' res' Hlen'.
  destruct (String.length s' <? String.length s)%nat; [| by apply Hk].
  destruct (repeat_re once fuel s' caps' k) as [res''|] eqn:Hagain; [| by apply Hk].
  intros [= <-]. exact (IH _ _ _ _ Honce Hk Hlen' Hagain).
Qed.

Lemma exec_re_length r n : ∀ s caps k res,
  keeps_length n k → List.length caps = n →
  exec_re r s caps k = Some res → List.length res = n.
Proof.
  induction r as [c | | p | r1 IH1 r2 IH2 | r1 IH1 | r1 IH1 | i r1 IH1 |];
    intros s caps k res Hk Hlen; cbn [exec_re].
  - destruct s as [|a s]; [done |]. destruct (Ascii.eqb a c); [by apply Hk | done].
  - destruct s as [|a s]; [done |]. destruct (Ascii.eqb a "010"); [done | by apply Hk].
  - destruct s as [|a s]; [done |]. destruct (p a); [by apply Hk | done].
  - apply IH1; [| done]. intros s' caps' res' Hlen'. exact (IH2 _ _ _ _ Hk Hlen').
  - destruct (exec_re r1 s caps k) as [res'|] eqn:Hr1.
    + intros [= <-]. exact (IH1 _ _ _ _ Hk Hlen Hr1).
    + by apply Hk.
  - by apply repeat_re_length.
  - apply IH1; [| done]. intros s' caps' res' Hlen'. apply Hk.
    by rewrite length_insert.
  - destruct s; [by apply Hk | done].
Qed.

(** [FindStringSubmatch] returns [nil] or the match and one text for each
    group. *)
Lemma find_from_length r groups s : ∀ inside,
  find_from r groups inside s = []
  ∨ List.length (find_from r groups inside s) = S groups.
Proof.
  assert (∀ s0 caps,
            exec_re r s0 (replicate (S groups) EmptyString)
              (λ s' caps, Some (<[O := consumed s0 s']> caps)) = Some caps →
            List.length caps = S groups) as Hex.
  { intros s0 caps Hex. eapply exec_re_length; [| | exact Hex].
    - intros s' caps' res' Hlen [= <-]. by rewrite length_insert.
    - apply length_replicate. }
  induction s as [|a s IH]; intros [|inside]; cbn [find_from]; try by left.
  - destruct (exec_re _ _ _ _) as [caps|] eqn:Hcaps; [right | by left].
    by apply (Hex "").
  - destruct (exec_re _ _ _ _) as [caps|] eqn:Hcaps; [right | apply IH].
    by apply (Hex (String a s)).
  - apply IH.
Qed.

Lemma FindStringSubmatch_length r groups s :
  FindStringSubmatch r groups s = []
  ∨ List.length (FindStringSubmatch r groups s) = S groups.
Proof. apply find_from_length. Qed.

(** The test of [getRepoName] fails exactly when the pattern does not match. *)
Lemma no_match_iff url :
  List.length (FindStringSubmatch repoNameRE 2 url) ≠ 3%nat
  ↔ FindStringSubmatch repoNameRE 2 url = [].
Proof.
  destruct (FindStringSubmatch_length repoNameRE 2 url) as [Hnil | Hlen].
  - rewrite Hnil. by split.
  - split; [done |]. intros Hnil. rewrite Hnil in Hlen. discriminate Hlen.
Qed.

End regexp.

(** *** The last element of a path *)

Section strings.
Implicit Types (c a : ascii) (s t u : string).

Lemma append_assoc s t u : (s +:+ t) +:+ u = s +:+ (t +:+ u).
Proof.
  induction s as [|a s IH]; [reflexivity |].
  change (String a ((s +:+ t) +:+ u) = String a (s +:+ (t +:+ u))). by f_equal.
Qed.

Lemma occurs_app c s t : occurs c (s +:+ t) = occurs c s || occurs c t.
Proof. induction s as [|a s IH]; simpl; [done |]. by rewrite IH, orb_assoc. Qed.

Lemma after_last_free c s : occurs c s = false → after_last c s = s.
Proof.
  destruct s as [|a s]; simpl; [done |].
  intros [Ha ->]%orb_false_iff. by rewrite Ha.
Qed.

Lemma after_last_cons c s : after_last c (String c s) = after_last c s.
Proof.
  simpl. rewrite Ascii.eqb_refl.
  destruct (occurs c s) eqn:Ho; [done |]. by rewrite after_last_free.
Qed.

Lemma after_last_sep c s t : after_last c (s +:+ String c t) = after_last c t.
Proof.
  induction s as [|a s IH]; [apply after_last_cons |].
  simpl. rewrite occurs_app. simpl. rewrite Ascii.eqb_refl.
  by rewrite orb_true_r.
Qed.

Lemma after_last_app_free c s t :
  occurs c t = false → after_last c (s +:+ t) = after_last c s +:+ t.
Proof.
  intros Ht. induction s as [|a s IH]; simpl.
  - by apply after_last_free.
  - rewrite occurs_app, Ht, orb_false_r.
    destruct (occurs c s); [done |]. by destruct (Ascii.eqb a c).
Qed.

Lemma occurs_after_last c s : occurs c (after_last c s) = false.
Proof.
  induction s as [|a s IH]; simpl; [done |].
  destruct (occurs c s) eqn:Ho; [done |].
  destruct (Ascii.eqb a c) eqn:Ha; [done |]. simpl. by rewrite Ha, Ho.
Qed.

End strings.

Section paths.
Implicit Types (c a : ascii) (s t p e : string) (els out : list string).

Lemma split_slash_last s :
  ∃ els, split_slash s = els ++ [after_last "/" s]
         ∧ (els = [] ↔ occurs "/" s = false).
Proof.
  induction s as [|a s (els & Hs & Hels)].
  - by exists [].
  - cbn [split_slash]. destruct (Ascii.eqb_spec a "/") as [-> | Hne].
    + exists ("" :: els). rewrite Hs, after_last_cons. split; [done |].
      simpl. by split.
    + apply Ascii.eqb_neq in Hne. destruct els as [|h els].
      * exists []. rewrite Hs. simpl.
        assert (occurs "/" s = false) as Ho by (by apply Hels).
        rewrite Hne, Ho, (after_last_free _ _ Ho). simpl. by split.
      * exists (String a h :: els). rewrite Hs. simpl.
        destruct (occurs "/" s) eqn:Ho.
        -- split; [done |]. rewrite Hne. simpl. by split.
        -- by destruct Hels as [_ Hels]; specialize (Hels eq_refl).
Qed.

Lemma clean_elems_snoc rooted out els e :
  plain e →
  clean_elems rooted out (els ++ [e]) = e :: clean_elems rooted out els.
Proof.
  intros (He & Hd & Hdd). revert out.
  induction els as [|x els IH]; intros out; simpl.
  - apply String.eqb_neq in He, Hd, Hdd. by rewrite He, Hd, Hdd.
  - destruct (String.eqb x "" || String.eqb x "."); [apply IH |].
    destruct (String.eqb x ".."); [| apply IH].
    destruct out as [|top out]; [destruct rooted; apply IH |].
    destruct (String.eqb top ".."); apply IH.
Qed.

Lemma concat_snoc (sep : string) (l : list string) e :
  String.concat sep (l ++ [e]) =
    match l with
    | [] => e
    | _ => String.concat sep l +:+ sep +:+ e
    end.
Proof.
  induction l as [|x l IH]; [done |].
  cbn [app String.concat]. rewrite IH.
  destruct l as [|y l]; [done |]. cbn [app].
  by rewrite !append_assoc.
Qed.

Lemma after_last_concat_snoc (l : list string) e :
  occurs "/" e = false → after_last "/" (String.concat "/" (l ++ [e])) = e.
Proof.
  intros He. rewrite concat_snoc. destruct l as [|x l].
  - by apply after_last_free.
  - change ("/" +:+ e) with (String "/" e).
    rewrite after_last_sep. by apply after_last_free.
Qed.

Lemma after_last_Clean p :
  plain (after_last "/" p) → after_last "/" (Clean p) = after_last "/" p.
Proof.
  intros He. unfold Clean.
  destruct (split_slash_last p) as (els & -> & _).
  rewrite clean_elems_snoc by done. cbn [rev].
  pose proof (after_last_concat_snoc (rev (clean_elems (IsAbs p) [] els))
                (after_last "/" p) (occurs_after_last _ _)) as Hout.
  destruct (IsAbs p).
  - by rewrite after_last_cons.
  - destruct (String.eqb_spec (String.concat "/"
                (rev (clean_elems false [] els) ++ [after_last "/" p])) "")
      as [Hempty | _]; [| done].
    rewrite Hempty in Hout. simpl in Hout. destruct He as [He _]. by rewrite <- Hout in He.
Qed.

Lemma after_last_Join w name :
  plain (after_last "/" name) →
  after_last "/" (Join [w; name]) = after_last "/" name.
Proof.
  intros He. assert (name ≠ "") as Hname.
  { intros ->. by destruct He as [He _]. }
  cbn [Join]. destruct (String.eqb_spec w "") as [-> | Hw].
  - apply String.eqb_neq in Hname. rewrite Hname. cbn [String.concat].
    by apply after_last_Clean.
  - cbn [String.concat]. change ("/" +:+ name) with (String "/" name).
    rewrite after_last_Clean; rewrite after_last_sep; done.
Qed.

End paths.

Section facts.
Context `{System}.

Lemma bind_inv_Ok {A B} (c : IO A) (k : A → IO B) w b w'' :
  (c ≫= k) w = (Ok b, w'') →
  ∃ a w', c w = (Ok a, w') ∧ k a w' = (Ok b, w'').
Proof.
  unfold mbind, IO_bind. destruct (c w) as [[a | e] w']; [by eauto | done].
Qed.

(** [NewGit] does not act on the world, whatever its arguments. *)
Lemma NewGit_world workdir url key w : (NewGit workdir url key w).2 = w.
Proof.
  unfold NewGit, mbind, IO_bind, pure, mret, IO_ret.
  destruct (filepath_Abs workdir); [| done]. by destruct (getRepoName url).
Qed.

Lemma getRepoName_no_match url :
  List.length (FindStringSubmatch repoNameRE 2 url) ≠ 3%nat →
  getRepoName url
  = Err ("could not parse repository name from uri: " +:+ url).
Proof.
  intros Hlen. unfold getRepoName.
  by destruct (Nat.eqb_spec (List.length (FindStringSubmatch repoNameRE 2 url)) 3).
Qed.

(** C9.  For a repository URL that the repository-name pattern does not
    match, [NewGit] returns an error and leaves the world as it was: no
    path is created and no subprocess is started. *)
Theorem NewGit_fails_fast workdir url key w :
  List.length (FindStringSubmatch repoNameRE 2 url) ≠ 3%nat →
  ∃ e, NewGit workdir url key w = (Err e, w).
Proof.
  intros Hlen. pose proof (NewGit_world workdir url key w) as Hw.
  unfold NewGit, mbind, IO_bind, pure in *.
  destruct (filepath_Abs workdir) as [abs | e]; [| by eauto].
  rewrite (getRepoName_no_match url Hlen). by eauto.
Qed.

(** The path of the snapshot a successful [Get] returns. *)
Lemma Get_Path g channel now w config w' :
  Get g channel now w = (Ok config, w') →
  Path config = Join [workdir g; cloneName g channel now].
Proof.
  unfold Get. intros Hget.
  apply bind_inv_Ok in Hget as (dir & w1 & Hclone & Hget).
  apply bind_inv_Ok in Hget as (version & w2 & _ & Hret).
  injection Hret as <- _.
  unfold localClone in Hclone.
  apply bind_inv_Ok in Hclone as ([] & w3 & _ & Hclone).
  apply bind_inv_Ok in Hclone as ([] & w4 & _ & Hret).
  by injection Hret as <- _.
Qed.

(** Two successful [Get] calls for one channel that read the same value
    of the clock return the same path. *)
Lemma Get_same_clock g channel now w1 config1 w1' w2 config2 w2' :
  Get g channel now w1 = (Ok config1, w1') →
  Get g channel now w2 = (Ok config2, w2') →
  Path config1 = Path config2.
Proof. intros H1 H2. by rewrite (Get_Path _ _ _ _ _ _ H1), (Get_Path _ _ _ _ _ _ H2). Qed.

(** *** The clock value in the path of a checkout *)

Lemma digit_neq a c :
  between 48 57 a = true → between 48 57 c = false → Ascii.eqb a c = false.
Proof. intros Ha Hc. apply Ascii.eqb_neq. intros ->. congruence. Qed.

Lemma occurs_string_of_uint c d :
  between 48 57 c = false → occurs c (NilEmpty.string_of_uint d) = false.
Proof.
  intros Hc. induction d as [|d IH|d IH|d IH|d IH|d IH|d IH|d IH|d IH|d IH|d IH];
    cbn [NilEmpty.string_of_uint occurs]; [done | ..];
    rewrite IH, orb_false_r; by apply digit_neq.
Qed.

Lemma occurs_Sprintd c n :
  between 48 57 c = false → Ascii.eqb "-" c = false → occurs c (Sprintd n) = false.
Proof.
  intros Hc Hm. unfold Sprintd, NilZero.string_of_int, NilZero.string_of_uint.
  assert (occurs c "0" = false) as H0.
  { cbn [occurs]. rewrite orb_false_r. by apply digit_neq. }
  assert (∀ d, occurs c match d with
                        | Decimal.Nil => "0"
                        | _ => NilEmpty.string_of_uint d
                        end = false) as Hd.
  { intros d. destruct d; try done; by apply occurs_string_of_uint. }
  destruct (Z.to_int n) as [d | d]; [apply Hd |].
  cbn [occurs]. by rewrite Hm, Hd.
Qed.

Lemma Sprintd_inj n n' : Sprintd n = Sprintd n' → n = n'.
Proof.
  unfold Sprintd. intros Heq. apply DecimalZ.to_int_inj.
  assert (∀ z, Z.to_int z ≠ Decimal.Pos Decimal.Nil
               ∧ Z.to_int z ≠ Decimal.Neg Decimal.Nil) as Hnn.
  { intros [|p|p]; split; try done; simpl; intros [= Hp];
      by apply DecimalPos.Unsigned.to_uint_nonnil in Hp. }
  destruct (Hnn n) as [Hp Hn], (Hnn n') as [Hp' Hn'].
  pose proof (NilZero.isi _ Hp Hn) as H1.
  pose proof (NilZero.isi _ Hp' Hn') as H2.
  rewrite Heq in H1. congruence.
Qed.

(** The clock value can be read back from the path of a checkout. *)
Lemma clock_of_path g channel now :
  after_last "_" (after_last "/" (Join [workdir g; cloneName g channel now]))
  = Sprintd now.
Proof.
  assert (occurs "/" (Sprintd now) = false) as Hslash by (by apply occurs_Sprintd).
  assert (occurs "_" (Sprintd now) = false) as Hus by (by apply occurs_Sprintd).
  assert (cloneName g channel now
          = (repoName g +:+ String "_" channel) +:+ String "_" (Sprintd now))
    as Hname by (unfold cloneName; by rewrite append_assoc).
  assert (after_last "/" (cloneName g channel now)
          = after_last "/" (repoName g +:+ String "_" channel)
            +:+ String "_" (Sprintd now)) as Hlast.
  { rewrite Hname. apply after_last_app_free. simpl. by rewrite Hslash. }
  rewrite after_last_Join.
  - rewrite Hlast, after_last_sep. by apply after_last_free.
  - rewrite Hlast.
    set (y := after_last "/" (repoName g +:+ String "_" channel)).
    assert (occurs "_" (y +:+ String "_" (Sprintd now)) = true) as Ho.
    { rewrite occurs_app. simpl. by rewrite orb_true_r. }
    repeat split; intros Heq; rewrite Heq in Ho; discriminate Ho.
Qed.

(** Two successful [Get] calls that return the same path have read the same
    value of the clock: paths can only collide between calls in the same
    nanosecond. *)
Lemma Get_clock g1 g2 channel1 channel2 now1 now2 w1 w2 config1 config2 w1' w2' :
  Get g1 channel1 now1 w1 = (Ok config1, w1') →
  Get g2 channel2 now2 w2 = (Ok config2, w2') →
  Path config1 = Path config2 → now1 = now2.
Proof.
  intros H1%Get_Path H2%Get_Path Heq. apply Sprintd_inj.
  rewrite <- (clock_of_path g1 channel1 now1), <- (clock_of_path g2 channel2 now2).
  by rewrite <- H1, <- H2, Heq.
Qed.

End facts.

(** *** Removal *)

Section removal.
Context `{System} `{FileSystem}.




(** Every absolute path lies within the root. *)
Lemma within_root q : IsAbs q = true → within "/" q = true.
Proof.
  intros Hq. unfold within, filepath_Abs. rewrite Hq. cbn.
  unfold Clean. rewrite Hq. cbn zeta.
  destruct (String.concat "/" _); by rewrite orb_true_r.
Qed.





End removal.

(** *** The properties on a concrete system *)

Section examples.
Import Examples.
#[local] Existing Instance git_ok.
#[local] Existing Instance fs_ok.

Lemma NewGit_fails_fast_witness :
  List.length (FindStringSubmatch repoNameRE 2 "https://github.com/foo/conf.git/")
  ≠ 3%nat
  ∧ ∃ e, NewGit "work" "https://github.com/foo/conf.git/" "" mirrored
         = (Err e, mirrored).
Proof.
  split; [vm_compute; discriminate |].
  apply NewGit_fails_fast. vm_compute. discriminate.
Defined.



(** C7 at the failing input.  Two [Get] calls for the channel [stable]
    read the same value of the clock, the snapshot of the first having
    been deleted in between; both succeed, and they return the same
    path. *)
Theorem snapshot_paths_collide :
  let now := 1500000000000000000 in
  let first := Get config_source "stable" now mirrored in
  let released := Delete config_source snapshot first.2 in
  let second := Get config_source "stable" now released.2 in
  first.1 = Ok snapshot ∧ released.1 = Ok tt ∧ second.1 = Ok snapshot.
Proof. repeat split; vm_compute; reflexivity. Qed.

End examples.
End GitSpec.

(** * Further properties of the registry *)

Module ClusterListMore.
Import api config controller reconcile ClusterListSpec.

Section facts.
Context `{Statuses}.

Implicit Types (m : gmap string clusterInfo) (ci : clusterInfo)
  (order : list (string * clusterInfo)) (cl : ClusterList) (c : Cluster)
  (f : IncludeExcludeFilter) (avail : list Cluster) (k id : string).

(** *** The first loop, record by record *)

Lemma latest_snoc f avail c k :
  latest f (avail ++ [c]) k =
    if accepted f c && bool_decide (ID c = k) then Some c else latest f avail k.
Proof. unfold latest. by rewrite foldl_app. Qed.

Lemma latest_Some f avail k c :
  latest f avail k = Some c → c ∈ avail ∧ accepted f c = true ∧ ID c = k.
Proof.
  induction avail as [|x avail IH] using rev_ind; [done |].
  rewrite latest_snoc. destruct (accepted f x && _) eqn:Hacc.
  - intros [= <-]. apply andb_true_iff in Hacc as [Ha Hk].
    apply bool_decide_eq_true in Hk. split; [| done].
    apply elem_of_app. right. constructor.
  - intros (Hin & Ha & Hk)%IH. split; [| done]. apply elem_of_app. by left.
Qed.

Lemma latest_None f avail k :
  latest f avail k = None ↔ ∀ c, c ∈ avail → accepted f c = true → ID c ≠ k.
Proof.
  induction avail as [|x avail IH] using rev_ind.
  - split; [| done]. intros _ c Hc. inversion Hc.
  - rewrite latest_snoc. destruct (accepted f x && _) eqn:Hacc.
    + split; [done |]. intros Hno. apply andb_true_iff in Hacc as [Ha Hk].
      apply bool_decide_eq_true in Hk. exfalso. apply (Hno x); [| done | done].
      apply elem_of_app. right. constructor.
    + rewrite IH. split.
      * intros Hno c [Hc | Hc%list_elem_of_singleton]%elem_of_app Ha; [by apply Hno |].
        subst c. rewrite Ha in Hacc. simpl in Hacc.
        by apply bool_decide_eq_false in Hacc.
      * intros Hno c Hc. apply Hno. apply elem_of_app. by left.
Qed.

Lemma reconciled_again old c c' :
  reconciled (reconciled old (Some c)) (Some c') = reconciled old (Some c').
Proof.
  destruct old as [ci|]; simpl; [| done].
  destruct (processing ci) eqn:Hp; simpl; by rewrite ?Hp.
Qed.

(** The state of the first loop after the input [avail], at the key [k]. *)
Lemma ingest_fold_lookup f avail (ids : gmap string bool) m k :
  let st := foldl (ingest_step f) (ids, m) avail in
  st.1 !! k = match latest f avail k with
              | Some _ => Some true
              | None => ids !! k
              end
  ∧ st.2 !! k = match latest f avail k with
                | Some c => reconciled (m !! k) (Some c)
                | None => m !! k
                end.
Proof.
  induction avail as [|x avail IH] using rev_ind; [done |].
  cbn zeta in *. rewrite foldl_app, latest_snoc. cbn [foldl].
  destruct (foldl (ingest_step f) (ids, m) avail) as [ids' m'].
  destruct IH as [IHi IHm]. simpl in IHi, IHm.
  destruct (accepted f x && bool_decide (ID x = k)) eqn:Hacc.
  - apply andb_true_iff in Hacc as [Ha Hk]. apply bool_decide_eq_true in Hk.
    rewrite ingest_step_accepted by done. subst k. simpl. split.
    + apply lookup_insert_eq.
    + transitivity (reconciled (m' !! ID x) (Some x)).
      * destruct (m' !! ID x) as [ex|] eqn:Hex; simpl.
        -- destruct (processing ex); simpl; [done | apply lookup_insert_eq].
        -- apply lookup_insert_eq.
      * rewrite IHm. destruct (latest f avail (ID x)); [| done].
        apply reconciled_again.
  - destruct (ingest_step_other f ids' m' x k) as [Hi Hm].
    { intros Ha Hk. rewrite Ha in Hacc. simpl in Hacc.
      by apply bool_decide_eq_false in Hacc. }
    by rewrite Hi, Hm.
Qed.

(** *** [UpdateAvailable], key by key *)

Lemma UpdateAvailable_reconciled avail cl k :
  clusters (UpdateAvailable avail cl) !! k
  = reconciled (clusters cl !! k) (latest (accountFilter cl) avail k).
Proof.
  rewrite UpdateAvailable_lookup. cbn zeta.
  destruct (ingest_fold_lookup (accountFilter cl) avail ∅ (clusters cl) k)
    as [-> ->].
  destruct (latest (accountFilter cl) avail k) as [c|]; simpl.
  - destruct (clusters cl !! k) as [ci|]; simpl.
    + destruct (processing ci) eqn:Hp; simpl; by rewrite ?Hp.
    + done.
  - rewrite lookup_empty. destruct (clusters cl !! k) as [ci|]; [| done].
    rewrite bool_decide_eq_false_2 by (by intros [? ?]).
    by rewrite orb_false_r.
Qed.

Lemma ClusterList_eq cl cl' :
  accountFilter cl = accountFilter cl' →
  (∀ k, clusters cl !! k = clusters cl' !! k) → cl = cl'.
Proof.
  destruct cl as [f m], cl' as [f' m']. simpl. intros -> Hm.
  f_equal. by apply map_eq.
Qed.

Lemma latest_accepted_only f avail k :
  latest f (filter (λ c, accepted f c = true) avail) k = latest f avail k.
Proof.
  induction avail as [|x avail IH] using rev_ind; [done |].
  rewrite filter_app, latest_snoc. destruct (accepted f x) eqn:Ha.
  - rewrite filter_cons_True by done. rewrite filter_nil, latest_snoc, Ha.
    by rewrite IH.
  - rewrite filter_cons_False by (by rewrite Ha). by rewrite filter_nil, app_nil_r.
Qed.

(** X1.  After [UpdateAvailable] the entry under a key is what it was if it
    was processing; otherwise it is the old entry with its cluster replaced
    by the last record of the input that passes both filters and carries the
    key, a new entry (epoch, not processing) for such a record when there was
    none, and nothing when the input has no such record.  The account filter
    stays. *)
Theorem UpdateAvailable_reconciles avail cl :
  accountFilter (UpdateAvailable avail cl) = accountFilter cl
  ∧ ∀ k, clusters (UpdateAvailable avail cl) !! k
         = reconciled (clusters cl !! k) (latest (accountFilter cl) avail k).
Proof.
  split; [apply UpdateAvailable_accountFilter |].
  intros k. apply UpdateAvailable_reconciled.
Qed.

(** X2.  [UpdateAvailable] does not depend on the records it rejects: the
    input without the decommissioned clusters and the clusters of accounts
    the filter refuses gives the same registry. *)
Theorem UpdateAvailable_ignores_rejected avail cl :
  UpdateAvailable (filter (λ c, accepted (accountFilter cl) c = true) avail) cl
  = UpdateAvailable avail cl.
Proof.
  apply ClusterList_eq.
  - by rewrite !UpdateAvailable_accountFilter.
  - intros k. by rewrite !UpdateAvailable_reconciled, latest_accepted_only.
Qed.

(** X3.  Reconciling twice against the same input is the same as once. *)
Theorem UpdateAvailable_idempotent avail cl :
  UpdateAvailable avail (UpdateAvailable avail cl) = UpdateAvailable avail cl.
Proof.
  apply ClusterList_eq.
  - by rewrite !UpdateAvailable_accountFilter.
  - intros k. rewrite UpdateAvailable_reconciled, UpdateAvailable_accountFilter.
    rewrite UpdateAvailable_reconciled.
    destruct (latest (accountFilter cl) avail k) as [c|].
    + apply reconciled_again.
    + destruct (clusters cl !! k) as [ci|]; simpl; [| done].
      destruct (processing ci) eqn:Hp; simpl; by rewrite ?Hp.
Qed.

(** *** Invariants of the registries a history reaches *)

Lemma step_accepted f cl (c : call) r cl' :
  step cl c r cl' →
  accountFilter cl = f → all_accepted f (clusters cl) →
  accountFilter cl' = f ∧ all_accepted f (clusters cl').
Proof.
  intros Hstep Hf Hall.
  destruct Hstep as [cl avail | cl order r cl' Hord Hsel | cl id now].
  - split; [by rewrite UpdateAvailable_accountFilter |].
    intros k ci. rewrite UpdateAvailable_reconciled, Hf.
    destruct (clusters cl !! k) as [old|] eqn:Hold;
      destruct (latest f avail k) as [c|] eqn:Hlat; simpl; try done.
    + destruct (processing old); intros [= <-]; [by eapply Hall |].
      by apply latest_Some in Hlat as (_ & Ha & _).
    + destruct (processing old); [| done]. intros [= <-]. by eapply Hall.
    + intros [= <-]. by apply latest_Some in Hlat as (_ & Ha & _).
  - destruct r as [c'|].
    + apply SelectNext_Some in Hsel as (id & ci & Hl & _ & _ & -> & _); [| done].
      split; [done |]. intros k ci'. rewrite marked_lookup.
      case_decide; [| by apply Hall]. intros [= <-]. exact (Hall _ _ Hl).
    + by apply SelectNext_None in Hsel as [-> _].
  - split; [unfold ClusterProcessed; by destruct (clusters cl !! id) |].
    intros k ci. rewrite ClusterProcessed_lookup. case_decide; [| by apply Hall].
    destruct (clusters cl !! k) as [ci'|] eqn:Hl; [| done].
    simpl. intros [= <-]. exact (Hall _ _ Hl).
Qed.

(** X4.  In every registry that a history reaches from the empty one, each
    entry is filed under the ID of its cluster, each tracked cluster passed
    both filters when it was ingested (it is not decommissioned and its
    account is allowed), and the account filter is the one the registry was
    made with; so the cluster a [SelectNext] returns there is not
    decommissioned and its account is allowed. *)
Theorem reachable_invariant f evs cl :
  exec (NewClusterList f) evs cl →
  accountFilter cl = f
  ∧ (∀ k ci, clusters cl !! k = Some ci →
             ID (cluster ci) = k
             ∧ LifecycleStatus (cluster ci) ≠ statusDecommissioned
             ∧ Allowed f (InfrastructureAccount (cluster ci)) = true)
  ∧ (∀ order c cl',
        range_order (clusters cl) order → SelectNext order cl = (Some c, cl') →
        LifecycleStatus c ≠ statusDecommissioned
        ∧ Allowed f (InfrastructureAccount c) = true).
Proof.
  intros Hex.
  assert (accountFilter cl = f ∧ all_accepted f (clusters cl)) as [Hf Hall].
  { assert (∀ cl0, exec cl0 evs cl → accountFilter cl0 = f →
                   all_accepted f (clusters cl0) →
                   accountFilter cl = f ∧ all_accepted f (clusters cl)) as Hgen.
    { clear Hex. intros cl0 Hex. induction Hex as [| ? ? ? ? ? ? Hstep _ IH];
        [done |]. intros Hf Hall.
      destruct (step_accepted f _ _ _ _ Hstep Hf Hall). by apply IH. }
    apply (Hgen _ Hex); [done |]. intros k ci. simpl. by rewrite lookup_empty. }
  assert (keyed (clusters cl)) as Hkey
    by (eapply exec_keyed; [exact Hex | apply keyed_empty]).
  assert (∀ c, accepted f c = true →
               LifecycleStatus c ≠ statusDecommissioned
               ∧ Allowed f (InfrastructureAccount c) = true) as Hacc.
  { intros c [Hd Ha]%andb_true_iff. split; [| done].
    apply negb_true_iff in Hd. by apply bool_decide_eq_false in Hd. }
  split; [done |]. split.
  - intros k ci Hl. split; [by apply Hkey |]. apply Hacc. by eapply Hall.
  - intros order c cl' Hord Hsel.
    apply SelectNext_Some in Hsel as (id & ci & Hl & _ & -> & _); [| done].
    apply Hacc. by eapply Hall.
Qed.

(** *** What [SelectNext] leaves alone *)

Lemma eligible_count_0 cl :
  eligible_count cl = 0%nat
  ↔ ∀ id ci, clusters cl !! id = Some ci → processing ci = true.
Proof.
  unfold eligible_count. rewrite map_size_empty_iff, map_empty. split.
  - intros Hnone id ci Hl. destruct (processing ci) eqn:Hp; [done |].
    specialize (Hnone id). apply map_lookup_filter_None in Hnone as [Hn | Hn];
      [congruence |]. by specialize (Hn ci Hl).
  - intros Hall id. apply map_lookup_filter_None. right.
    intros ci Hl. simpl. rewrite (Hall _ _ Hl). done.
Qed.

Lemma eligible_count_marked id ci cl :
  clusters cl !! id = Some ci → processing ci = false →
  S (eligible_count (marked id ci cl)) = eligible_count cl.
Proof.
  intros Hl Hp. unfold eligible_count, marked. cbn [clusters].
  rewrite map_filter_insert_False by (simpl; done).
  rewrite map_filter_delete.
  assert (filter (λ entry : string * clusterInfo, processing entry.2 = false)
            (clusters cl) !! id = Some ci) as Hin
    by (by apply map_lookup_filter_Some).
  rewrite map_size_delete, Hin.
  assert (size (filter (λ entry : string * clusterInfo, processing entry.2 = false)
                 (clusters cl)) ≠ 0%nat) as Hne.
  { apply map_size_non_empty_iff. intros Hempty. by rewrite Hempty in Hin. }
  lia.
Qed.

Lemma SelectNext_effect order cl r cl' :
  range_order (clusters cl) order →
  SelectNext order cl = (r, cl') →
  accountFilter cl' = accountFilter cl
  ∧ (∀ k, match clusters cl !! k with
          | Some ci =>
              ∃ ci', clusters cl' !! k = Some ci'
                     ∧ cluster ci' = cluster ci
                     ∧ lastProcessed ci' = lastProcessed ci
                     ∧ (processing ci = true → ci' = ci)
          | None => clusters cl' !! k = None
          end)
  ∧ (r = None ↔ eligible_count cl = 0%nat)
  ∧ (r = None → cl' = cl)
  ∧ (eligible_count cl' + match r with Some _ => 1 | None => 0 end)%nat
    = eligible_count cl.
Proof.
  intros Hord Hsel. destruct r as [c|].
  - apply SelectNext_Some in Hsel as (id & ci & Hl & Hp & -> & -> & _); [| done].
    split; [done |]. split; [| split; [| split]].
    + intros k. rewrite marked_lookup. case_decide as Hk.
      * subst k. rewrite Hl. exists (set_processing true ci).
        repeat split; try done. congruence.
      * destruct (clusters cl !! k) as [ci'|]; [| done]. by exists ci'.
    + split; [done |]. intros H0.
      pose proof (proj1 (eligible_count_0 cl) H0 _ _ Hl). congruence.
    + done.
    + rewrite <- (eligible_count_marked id ci cl) by done. lia.
  - apply SelectNext_None in Hsel as [-> Hall]; [| done].
    split; [done |]. split; [| split; [| split]]; try done.
    + intros k. destruct (clusters cl !! k) as [ci|]; [| done]. by exists ci.
    + split; [| done]. intros _. by apply eligible_count_0.
Qed.

(** X5.  [SelectNext] changes nothing but the [processing] flag of the entry
    it selects: no entry is added or removed, every entry keeps its cluster
    and its [lastProcessed], no flag is cleared, and the account filter
    stays.  It returns [nil] exactly when no entry can be selected, and then
    the registry is unchanged; otherwise one entry fewer can be selected. *)
Theorem SelectNext_frame order cl r cl' :
  range_order (clusters cl) order →
  SelectNext order cl = (r, cl') →
  accountFilter cl' = accountFilter cl
  ∧ (∀ k, match clusters cl !! k with
          | Some ci =>
              ∃ ci', clusters cl' !! k = Some ci'
                     ∧ cluster ci' = cluster ci
                     ∧ lastProcessed ci' = lastProcessed ci
                     ∧ (processing ci = true → ci' = ci)
          | None => clusters cl' !! k = None
          end)
  ∧ (r = None ↔ eligible_count cl = 0%nat)
  ∧ (r = None → cl' = cl)
  ∧ (eligible_count cl' + match r with Some _ => 1 | None => 0 end)%nat
    = eligible_count cl.
Proof. apply SelectNext_effect. Qed.

(** X6.  In a run of [SelectNext] calls with nothing in between, the calls
    return a cluster until as many have been returned as entries could be
    selected at the start, and [nil] from then on. *)
Theorem SelectNext_drains cl evs cl' :
  exec cl evs cl' →
  Forall (λ e : event, e.1 = CallSelectNext) evs →
  ∀ i r, evs !! i = Some (CallSelectNext, r) →
         (is_Some r ↔ (i < eligible_count cl)%nat).
Proof.
  intros Hex. induction Hex as [cl | cl c r0 cl1 evs cl2 Hstep Hrest IH];
    intros Hall i r Hi; [done |].
  apply Forall_cons in Hall as [Hc Hall]. simpl in Hc. subst c.
  inversion Hstep as [| ? order ? ? Hord Hsel |]; subst.
  destruct (SelectNext_effect _ _ _ _ Hord Hsel) as (_ & _ & Hnil & Hsame & Hcount).
  destruct i as [|i].
  - injection Hi as <-. destruct r0 as [c|]; simpl in Hcount.
    + split; [intros _; lia | by eauto].
    + split; [by intros [? ?] |]. destruct Hnil as [Hnil _].
      rewrite (Hnil eq_refl). lia.
  - specialize (IH Hall i r Hi). rewrite IH. destruct r0; simpl in Hcount; [lia |].
    destruct Hnil as [Hnil _]. specialize (Hnil eq_refl). lia.
Qed.

(** X7.  When one entry that can be selected is strictly more urgent than
    every other one (a higher priority, or the same priority and an older
    [lastProcessed]), [SelectNext] returns its cluster and marks it, in
    whatever order the map is visited. *)
Theorem SelectNext_strict_winner order cl (a : string) ia :
  eligible cl a ia →
  (∀ k ci, eligible cl k ci → k ≠ a → outranks ia ci) →
  range_order (clusters cl) order →
  SelectNext order cl = (Some (cluster ia), marked a ia cl).
Proof.
  intros [Ha Hpa] Hout Hord.
  destruct (SelectNext order cl) as [[c|] cl'] eqn:Hsel.
  - apply SelectNext_Some in Hsel as (k & i & Hl & Hp & -> & -> & Hall); [| done].
    destruct (decide (k = a)) as [-> | Hne]; [by simplify_eq |].
    specialize (Hall a ia Ha Hpa). specialize (Hout k i (conj Hl Hp) Hne).
    unfold precedes in Hall. unfold outranks in Hout. simpl in Hall. lia.
  - apply SelectNext_None in Hsel as [_ Hall]; [| done].
    apply Hall in Ha. congruence.
Qed.

(** *** Who changes the scheduling state of an entry *)

(** X8.  Through one call an entry that stays keeps its [lastProcessed] and
    its [processing] flag, except that [SelectNext] raises the flag of the
    entry whose cluster it returns and [ClusterProcessed] for the key of the
    entry clears the flag and sets [lastProcessed] to the time of the
    call. *)
Theorem scheduling_state_discipline cl (c : call) r cl' k ci ci' :
  step cl c r cl' →
  clusters cl !! k = Some ci → clusters cl' !! k = Some ci' →
  (lastProcessed ci' = lastProcessed ci ∧ processing ci' = processing ci)
  ∨ (c = CallSelectNext ∧ r = Some (cluster ci) ∧ processing ci = false
     ∧ ci' = set_processing true ci)
  ∨ (∃ now, c = CallClusterProcessed k now
            ∧ ci' = {| lastProcessed := now; processing := false;
                       cluster := cluster ci |}).
Proof.
  intros Hstep Hl Hl'.
  destruct Hstep as [cl avail | cl order r cl' Hord Hsel | cl id now].
  - left. rewrite UpdateAvailable_reconciled, Hl in Hl'.
    destruct (latest (accountFilter cl) avail k) as [x|]; simpl in Hl';
      destruct (processing ci) eqn:Hp; simplify_eq; by rewrite ?Hp.
  - destruct r as [x|].
    + apply SelectNext_Some in Hsel as (id & i & Hli & Hp & -> & -> & _); [| done].
      rewrite marked_lookup in Hl'. case_decide; [| left; by simplify_eq].
      right. left. by simplify_eq.
    + apply SelectNext_None in Hsel as [-> _]; [| done]. left. by simplify_eq.
  - rewrite ClusterProcessed_lookup, Hl in Hl'. case_decide; [| left; by simplify_eq].
    right. right. exists now. subst id. simpl in Hl'. by injection Hl' as <-.
Qed.

(** X9.  Selecting a cluster and reporting it processed gives the registry
    back as it was, with the [lastProcessed] of that entry set to the time of
    the report; the entry can be selected again. *)
Theorem select_then_release order cl c cl' now :
  keyed (clusters cl) →
  range_order (clusters cl) order →
  SelectNext order cl = (Some c, cl') →
  ∃ ci, eligible cl (ID c) ci ∧ cluster ci = c
        ∧ accountFilter (ClusterProcessed (ID c) now cl') = accountFilter cl
        ∧ clusters (ClusterProcessed (ID c) now cl')
          = <[ID c := set_lastProcessed now ci]> (clusters cl)
        ∧ eligible (ClusterProcessed (ID c) now cl') (ID c)
                   (set_lastProcessed now ci).
Proof.
  intros Hkey Hord Hsel.
  apply SelectNext_Some in Hsel as (id & ci & Hl & Hp & -> & -> & _); [| done].
  rewrite (Hkey _ _ Hl). exists ci.
  assert (clusters (ClusterProcessed id now (marked id ci cl))
          = <[id := set_lastProcessed now ci]> (clusters cl)) as Heq.
  { apply map_eq. intros k. rewrite ClusterProcessed_lookup, marked_lookup.
    rewrite lookup_insert. case_decide; [| done]. simpl.
    unfold set_lastProcessed. by rewrite Hp. }
  repeat split; try done.
  - unfold ClusterProcessed. by destruct (clusters (marked id ci cl) !! id).
  - rewrite Heq. apply lookup_insert_eq.
Qed.

End facts.

(** *** The properties on concrete registries *)

Section examples.
Import Examples.
#[local] Existing Instance statuses.

Lemma three_tiers_keyed : keyed (clusters three_tiers).
Proof. apply UpdateAvailable_keyed, keyed_empty. Qed.

Lemma reachable_invariant_witness :
  exec empty (replay empty select_twice).1 (replay empty select_twice).2
  ∧ accountFilter (replay empty select_twice).2 = allow_all.
Proof.
  pose proof (replay_exec empty select_twice) as Hex.
  split; [exact Hex |].
  exact (proj1 (reachable_invariant allow_all _ _ Hex)).
Defined.

Lemma SelectNext_frame_witness :
  let first := SelectNext (map_to_list (clusters three_tiers)) three_tiers in
  (first.1 = None ↔ eligible_count three_tiers = 0%nat)
  ∧ (eligible_count first.2 + match first.1 with Some _ => 1 | None => 0 end)%nat
    = eligible_count three_tiers.
Proof.
  intros first.
  destruct (SelectNext_frame (map_to_list (clusters three_tiers)) three_tiers
              first.1 first.2) as (_ & _ & Hnil & _ & Hcount).
  - unfold range_order. reflexivity.
  - apply surjective_pairing.
  - by split.
Defined.

Lemma SelectNext_drains_witness :
  let run := replay three_tiers
               [CallSelectNext; CallSelectNext; CallSelectNext; CallSelectNext] in
  run.1 !! 3%nat = Some (CallSelectNext, None)
  ∧ (is_Some (@None Cluster) ↔ (3 < eligible_count three_tiers)%nat).
Proof.
  intros run. split; [vm_compute; reflexivity |].
  apply (SelectNext_drains three_tiers run.1 run.2).
  - apply replay_exec.
  - vm_compute. repeat constructor.
  - vm_compute. reflexivity.
Defined.

Lemma SelectNext_strict_winner_witness :
  SelectNext (map_to_list (clusters two_normal)) two_normal
  = (Some (ready "a"), marked "a" (mkClusterInfo 10 false (ready "a")) two_normal).
Proof.
  apply (SelectNext_strict_winner _ two_normal "a"
           (mkClusterInfo 10 false (ready "a"))).
  - split; vm_compute; reflexivity.
  - intros k ci He Hne. apply eligible_in_list in He. vm_compute in He.
    destruct He as [[= <- <-] | [[= <- <-] | []]]; [done |].
    right. split; [reflexivity | simpl; lia].
  - unfold range_order. reflexivity.
Defined.

Lemma scheduling_state_discipline_witness :
  let first := SelectNext (map_to_list (clusters three_tiers)) three_tiers in
  first.1 = Some (updating "c")
  ∧ clusters first.2 !! "c"
    = Some (set_processing true (mkClusterInfo 0 false (updating "c"))).
Proof.
  intros first.
  assert (clusters three_tiers !! "c" = Some (mkClusterInfo 0 false (updating "c")))
    as Hc by (vm_compute; reflexivity).
  assert (clusters first.2 !! "c"
          = Some (mkClusterInfo 0 true (updating "c")))
    as Hc' by (vm_compute; reflexivity).
  destruct (scheduling_state_discipline three_tiers CallSelectNext first.1 first.2
              "c" _ _ (step_SelectNext_canonical three_tiers) Hc Hc')
    as [[_ Hsame] | [(_ & Hr & _ & Hci) | (now & Hcall & _)]].
  - discriminate Hsame.
  - split; [exact Hr |]. by rewrite Hc', Hci.
  - discriminate Hcall.
Defined.

Lemma select_then_release_witness :
  let first := SelectNext (map_to_list (clusters three_tiers)) three_tiers in
  first.1 = Some (updating "c")
  ∧ ∃ ci, eligible (ClusterProcessed "c" 1500000000000000000 first.2) "c"
                   (set_lastProcessed 1500000000000000000 ci).
Proof.
  intros first. split; [vm_compute; reflexivity |].
  destruct (select_then_release (map_to_list (clusters three_tiers)) three_tiers
              (updating "c") first.2 1500000000000000000)
    as (ci & _ & _ & _ & _ & He).
  - apply three_tiers_keyed.
  - unfold range_order. reflexivity.
  - vm_compute. reflexivity.
  - by exists ci.
Defined.

End examples.
End ClusterListMore.

(** * Further properties of the config source *)

Module GitMore.
Import golib channel mirror gitterms GitSpec.

(** *** Characters *)

Section characters.

Lemma first_range b sz lo hi :
  first b = Some (sz, lo, hi) → 128 ≤ lo ∧ (2 ≤ sz ≤ 4)%nat.
Proof.
  unfold first. repeat case_match; intros [= <- <- <-]; lia.
Qed.

(** The character at the head of a string: its first byte, and behind it
    bytes that no ASCII character has.  Its width does not depend on what
    follows it. *)
Lemma DecodeRuneInString_split s :
  s ≠ "" →
  ∃ a ch rest,
    s = String a (ch +:+ rest)
    ∧ (DecodeRuneInString s).2 = S (String.length ch)
    ∧ (DecodeRuneInString (String a ch)).2 = S (String.length ch)
    ∧ all_chars high ch = true.
Proof.
  destruct s as [|a0 s1]; [done |]. intros _.
  unfold DecodeRuneInString. cbv zeta.
  destruct (byte a0 <? RuneSelf) eqn:H0.
  { exists a0, "", s1. by rewrite ?H0. }
  destruct (first (byte a0)) as [[[sz lo] hi]|] eqn:Hf.
  2: { exists a0, "", s1. by rewrite ?H0, ?Hf. }
  destruct (first_range _ _ _ _ Hf) as [Hlo Hsz].
  destruct s1 as [|a1 s2].
  { exists a0, "", "". by rewrite ?H0, ?Hf. }
  destruct ((byte a1 <? lo) || (hi <? byte a1)) eqn:H1.
  { exists a0, "", (String a1 s2). by rewrite ?H0, ?Hf. }
  assert (high a1 = true) as Hh1.
  { apply orb_false_iff in H1 as [H1 _]. unfold high.
    apply Z.leb_le. apply Z.ltb_ge in H1. lia. }
  destruct (sz <=? 2)%nat eqn:H2.
  { exists a0, (String a1 ""), s2. rewrite ?H0, ?Hf, ?H1, ?H2. cbn.
    by rewrite Hh1. }
  destruct s2 as [|a2 s3].
  { exists a0, "", (String a1 ""). by rewrite ?H0, ?Hf. }
  assert (∀ b, continues b = true → 128 ≤ b) as Hcont.
  { intros b [Hb _]%andb_true_iff. by apply Z.leb_le in Hb. }
  destruct (continues (byte a2)) eqn:H3; cbn [negb].
  2: { exists a0, "", (String a1 (String a2 s3)). by rewrite ?H0, ?Hf. }
  assert (high a2 = true) as Hh2 by (apply Z.leb_le; auto).
  destruct (sz <=? 3)%nat eqn:H4.
  { exists a0, (String a1 (String a2 "")), s3.
    rewrite ?H0, ?Hf, ?H1, ?H2, ?H3, ?H4. cbn. by rewrite Hh1, Hh2. }
  destruct s3 as [|a3 s4].
  { exists a0, "", (String a1 (String a2 "")). by rewrite ?H0, ?Hf. }
  destruct (continues (byte a3)) eqn:H5; cbn [negb].
  2: { exists a0, "", (String a1 (String a2 (String a3 s4))).
       by rewrite ?H0, ?Hf. }
  assert (high a3 = true) as Hh3 by (apply Z.leb_le; auto).
  exists a0, (String a1 (String a2 (String a3 ""))), s4.
  rewrite ?H0, ?Hf, ?H1, ?H2, ?H3, ?H4, ?H5. cbn. by rewrite Hh1, Hh2, Hh3.
Qed.

Lemma slice_from_app x y : slice_from (String.length x) (x +:+ y) = y.
Proof. induction x as [|a x IH]; [by destruct y | exact IH]. Qed.

(** The matcher goes on behind one character. *)
Lemma slice_from_width s :
  s ≠ "" →
  ∃ ch, one_char ch ∧ s = ch +:+ slice_from (DecodeRuneInString s).2 s
        ∧ ∃ a ch', ch = String a ch' ∧ all_chars high ch' = true.
Proof.
  intros (a & ch & rest & -> & Hw & Hch & Hhigh)%DecodeRuneInString_split.
  exists (String a ch). split; [by split |]. rewrite Hw.
  change (String a (ch +:+ rest)) with (String a ch +:+ rest) at 2.
  change (S (String.length ch)) with (String.length (String a ch)).
  rewrite slice_from_app. split; [done |]. by exists a, ch.
Qed.

(** A name character is an ASCII character. *)
Lemma name_char_not_high a : name_char a = true → high a = false.
Proof.
  unfold name_char, word_char, between, high, byte.
  intros Hname. apply Z.leb_gt.
  assert (nat_of_ascii a ≤ 122)%nat as Hle.
  { repeat (apply orb_true_iff in Hname as [Hname | Hname]);
      try (apply andb_true_iff in Hname as [_ Hname]; apply Nat.leb_le in Hname; lia);
      apply Ascii.eqb_eq in Hname as ->; vm_compute; lia. }
  unfold nat_of_ascii in Hle. lia.
Qed.

End characters.

(** *** What the matcher took *)

Section matcher.
Implicit Types (r : regexp) (s m : string) (caps res : list string)
  (k : string → list string → option (list string)).

Lemma length_app_string s t :
  String.length (s +:+ t) = (String.length s + String.length t)%nat.
Proof.
  induction s as [|a s IH]; [done |].
  change (S (String.length (s +:+ t)) = S (String.length s + String.length t)).
  by rewrite IH.
Qed.

Lemma consumed_app m s : consumed (m +:+ s) s = m.
Proof.
  unfold consumed. rewrite length_app_string.
  replace (String.length m + String.length s - String.length s)%nat
    with (String.length m) by lia.
  induction m as [|a m IH].
  - by destruct s.
  - change (String a (substring 0 (String.length m) (m +:+ s)) = String a m).
    by rewrite IH.
Qed.

(** A run of characters of a class: the repetition took a non-empty
    string of them. *)
Lemma repeat_one_char_inv (p : ascii → bool)
    (once : string → list string →
            (string → list string → option (list string)) →
            option (list string)) fuel :
  (∀ s caps k, once s caps k = match s with
                               | String a s' => if p a then k s' caps else None
                               | EmptyString => None
                               end) →
  ∀ s caps k res,
    repeat_re once fuel s caps k = Some res →
    ∃ m s', s = m +:+ s' ∧ m ≠ "" ∧ all_chars p m = true ∧ k s' caps = Some res.
Proof.
  intros Honce. induction fuel as [|fuel IH]; intros s caps k res; [done |].
  cbn [repeat_re]. rewrite Honce. destruct s as [|a s]; [done |].
  destruct (p a) eqn:Hp; [| done].
  replace (String.length s <? String.length (String a s))%nat with true
    by (symmetry; apply Nat.ltb_lt; simpl; lia).
  destruct (repeat_re once fuel s caps k) as [res'|] eqn:Hagain.
  - intros [= <-]. apply IH in Hagain as (m & s' & -> & Hm & Hall & Hk).
    exists (String a m), s'. split; [reflexivity |]. split; [done |].
    split; [| done]. cbn [all_chars]. by rewrite Hp, Hall.
  - intros Hk. exists (String a ""), s. split; [reflexivity |]. split; [done |].
    split; [| done]. cbn [all_chars]. by rewrite Hp.
Qed.

Lemma repeat_class_inv (p : ascii → bool) s caps k res :
  exec_re (Plus (CharClass p)) s caps k = Some res →
  ∃ m s', s = m +:+ s' ∧ m ≠ "" ∧ all_chars p m = true ∧ k s' caps = Some res.
Proof. by apply repeat_one_char_inv. Qed.

Lemma repeat_re_keeps j once fuel : ∀ s caps k res,
  (∀ s caps k res, keeps_index j k → once s caps k = Some res →
                   res !! j = caps !! j) →
  keeps_index j k →
  repeat_re once fuel s caps k = Some res → res !! j = caps !! j.
Proof.
  induction fuel as [|fuel IH]; intros s caps k res Honce Hk; [done |].
  cbn [repeat_re]. apply Honce. intros s' caps' res'.
  destruct (String.length s' <? String.length s)%nat; [| by apply Hk].
  destruct (repeat_re once fuel s' caps' k) as [res''|] eqn:Hagain; [| by apply Hk].
  intros [= <-]. exact (IH _ _ _ _ Honce Hk Hagain).
Qed.

(** A pattern without a group [j] leaves the submatch [j] as it is. *)
Lemma exec_re_keeps j r :
  captures_index j r = false →
  ∀ s caps k res, keeps_index j k →
                  exec_re r s caps k = Some res → res !! j = caps !! j.
Proof.
  induction r as [c | | p | r1 IH1 r2 IH2 | r1 IH1 | r1 IH1 | i r1 IH1 |];
    cbn [captures_index]; intros Hj s caps k res Hk; cbn [exec_re].
  - destruct s as [|a s]; [done |]. destruct (Ascii.eqb a c); [by apply Hk | done].
  - destruct s as [|a s]; [done |]. destruct (Ascii.eqb a "010"); [done | by apply Hk].
  - destruct s as [|a s]; [done |]. destruct (p a); [by apply Hk | done].
  - apply orb_false_iff in Hj as [Hj1 Hj2]. apply (IH1 Hj1).
    intros s' caps' res'. exact (IH2 Hj2 _ _ _ _ Hk).
  - destruct (exec_re r1 s caps k) as [res'|] eqn:Hr1.
    + intros [= <-]. exact (IH1 Hj _ _ _ _ Hk Hr1).
    + by apply Hk.
  - apply repeat_re_keeps; [| done]. intros s' caps' k' res'. by apply IH1.
  - apply orb_false_iff in Hj as [Hi Hj]. apply Nat.eqb_neq in Hi.
    apply (IH1 Hj). intros s' caps' res' Hex. rewrite (Hk _ _ _ Hex).
    by apply list_lookup_insert_ne.
  - destruct s; [by apply Hk | done].
Qed.

(** The end of [repoNameRE], after the name: nothing, or one character
    that is no newline, and [git]. *)
Lemma suffix_inv s caps k res :
  exec_re (Concat (Quest (Capture 2 (Concat AnyCharNotNL
             (Concat (Lit "g") (Concat (Lit "i") (Lit "t")))))) EndText)
          s caps k = Some res →
  s = "" ∨ ∃ ch, s = ch +:+ "git" ∧ one_char ch ∧ ch ≠ String "010" ""
                 ∧ ∃ a ch', ch = String a ch' ∧ all_chars high ch' = true.
Proof.
  destruct s as [|a s]; [by left |]. intros Hex. right.
  destruct (slice_from_width (String a s)) as (ch & Hch & Hs & a' & ch' & -> & Hhigh);
    [done |].
  exists (String a' ch'). revert Hex. cbn [exec_re].
  destruct (Ascii.eqb_spec a "010") as [-> | Hnl]; [done |].
  injection Hs as <- Hs.
  destruct (slice_from _ (String a s)) as [|b [|c [|d [|e t]]]]; try done;
    try (destruct (Ascii.eqb_spec b "g") as [-> |]; try done);
    try (destruct (Ascii.eqb_spec c "i") as [-> |]; try done);
    try (destruct (Ascii.eqb_spec d "t") as [-> |]; try done).
  intros _. split; [by rewrite Hs |]. split; [done |].
  split; [| by exists a, ch']. by intros [= -> _].
Qed.

Lemma find_from_inv r groups s : ∀ inside,
  find_from r groups inside s ≠ [] →
  ∃ pre s0, s = pre +:+ s0
    ∧ exec_re r s0 (replicate (S groups) EmptyString)
        (λ s' caps, Some (<[O := consumed s0 s']> caps))
      = Some (find_from r groups inside s).
Proof.
  induction s as [|a s IH]; intros [|inside]; cbn [find_from]; try done.
  - destruct (exec_re _ _ _ _) as [caps|] eqn:Hex; [| done].
    intros _. by exists "", "".
  - destruct (exec_re r (String a s) _ _) as [caps|] eqn:Hex.
    + intros _. by exists "", (String a s).
    + intros (pre & s0 & -> & Hex')%IH. by exists (String a pre), s0.
  - intros (pre & s0 & -> & Hex')%IH. by exists (String a pre), s0.
Qed.

Lemma FindStringSubmatch_inv r groups s :
  FindStringSubmatch r groups s ≠ [] →
  ∃ pre s0, s = pre +:+ s0
    ∧ exec_re r s0 (replicate (S groups) EmptyString)
        (λ s' caps, Some (<[O := consumed s0 s']> caps))
      = Some (FindStringSubmatch r groups s).
Proof. apply find_from_inv. Qed.

Lemma quest_lit_inv c r2 s caps k res :
  exec_re (Concat (Quest (Lit c)) r2) s caps k = Some res →
  ∃ opt s1, s = opt +:+ s1 ∧ exec_re r2 s1 caps k = Some res.
Proof.
  cbn [exec_re]. destruct s as [|a s].
  - intros Hex. by exists "", "".
  - destruct (Ascii.eqb a c).
    + destruct (exec_re r2 s caps k) as [res'|] eqn:Hex.
      * intros [= <-]. by exists (String a ""), s.
      * intros Hex'. by exists "", (String a s).
    + intros Hex. by exists "", (String a s).
Qed.

Lemma capture_plus_inv i (p : ascii → bool) r2 s caps k res :
  exec_re (Concat (Capture i (Plus (CharClass p))) r2) s caps k = Some res →
  ∃ m s', s = m +:+ s' ∧ m ≠ "" ∧ all_chars p m = true
          ∧ exec_re r2 s' (<[i := m]> caps) k = Some res.
Proof.
  intros Hex.
  change (exec_re (Plus (CharClass p)) s caps
            (λ s' caps', exec_re r2 s' (<[i := consumed s s']> caps') k) = Some res)
    in Hex.
  apply repeat_class_inv in Hex as (m & s' & -> & Hm & Hall & Hex).
  rewrite consumed_app in Hex. by exists m, s'.
Qed.

Lemma append_nil_r s : s +:+ "" = s.
Proof.
  induction s as [|a s IH]; [done |].
  change (String a (s +:+ "") = String a s). by rewrite IH.
Qed.

Lemma getRepoName_inv url name :
  getRepoName url = Ok name →
  name ≠ "" ∧ all_chars name_char name = true
  ∧ ∃ pre, url = pre +:+ name
           ∨ ∃ ch, one_char ch ∧ ch ≠ String "010" ""
                   ∧ url = pre +:+ name +:+ ch +:+ "git".
Proof.
  unfold getRepoName. cbn zeta.
  destruct (Nat.eqb_spec (List.length (FindStringSubmatch repoNameRE 2 url)) 3)
    as [Hlen | Hlen]; [| done]. simpl. intros [= <-].
  destruct (FindStringSubmatch_inv repoNameRE 2 url) as (pre & s0 & -> & Hex).
  { intros Hnil. by rewrite Hnil in Hlen. }
  revert Hex. generalize (FindStringSubmatch repoNameRE 2 (pre +:+ s0)).
  intros res Hex. clear Hlen. unfold repoNameRE in Hex.
  apply quest_lit_inv in Hex as (opt & s1 & -> & Hex).
  apply capture_plus_inv in Hex as (m & s2 & -> & Hm & Hall & Hex).
  pose proof (suffix_inv _ _ _ _ Hex) as Hsuffix.
  apply exec_re_keeps with (j := 1%nat) in Hex; [| done |].
  2: { intros s' caps' res' [= <-]. by apply list_lookup_insert_ne. }
  rewrite list_lookup_insert_eq in Hex by (simpl; lia).
  rewrite nth_lookup, Hex. simpl. split; [done |]. split; [done |].
  exists (pre +:+ opt). destruct Hsuffix as [-> | (ch & -> & Hch & Hnl & _)].
  - left. by rewrite append_nil_r, append_assoc.
  - right. exists ch. split; [done |]. split; [done |]. by rewrite append_assoc.
Qed.

(** X10.  A repository name that [getRepoName] returns is a non-empty
    string of letters, digits, [_] and [-], and it is what the URL ends
    with, or what stands in front of a last character followed by [git] at
    its end; that character is any one but a newline, in the UTF-8 encoding
    in which the matcher reads the URL. *)
Theorem getRepoName_sound url name :
  getRepoName url = Ok name →
  name ≠ "" ∧ all_chars name_char name = true
  ∧ ∃ pre, url = pre +:+ name
           ∨ ∃ ch, one_char ch ∧ ch ≠ String "010" ""
                   ∧ url = pre +:+ name +:+ ch +:+ "git".
Proof. apply getRepoName_inv. Qed.

End matcher.

(** *** Parsing the usual form of a URL *)

Section roundtrip.
Implicit Types (r : regexp) (s m q : string) (caps res : list string)
  (k : string → list string → option (list string)).

Lemma append_inj_r s s' t t' :
  String.length t = String.length t' → s +:+ t = s' +:+ t' → s = s' ∧ t = t'.
Proof.
  revert s'. induction s as [|a s IH]; intros [|b s'] Hlen Heq.
  - done.
  - exfalso. change (t = String b (s' +:+ t')) in Heq. subst t.
    cbn [String.length] in Hlen. rewrite length_app_string in Hlen. lia.
  - exfalso. change (String a (s +:+ t) = t') in Heq. subst t'.
    cbn [String.length] in Hlen. rewrite length_app_string in Hlen. lia.
  - change (String a (s +:+ t) = String b (s' +:+ t')) in Heq.
    injection Heq as -> Heq. destruct (IH _ Hlen Heq) as [-> ->]. done.
Qed.

Lemma tail_run_length p s : (String.length (tail_run p s) ≤ String.length s)%nat.
Proof.
  induction s as [|a s IH]; [done |]. cbn [tail_run].
  destruct (p a && _); cbn [String.length]; lia.
Qed.

Lemma tail_run_all p m : all_chars p m = true → tail_run p m = m.
Proof.
  induction m as [|a m IH]; [done |]. cbn [all_chars tail_run].
  intros [Hp Hall]%andb_true_iff. rewrite Hp, (IH Hall), Nat.eqb_refl. done.
Qed.

Lemma tail_run_app p x m :
  all_chars p m = true → tail_run p (x +:+ m) = tail_run p x +:+ m.
Proof.
  intros Hall. induction x as [|a x IH]; [by apply tail_run_all |].
  change (String a x +:+ m) with (String a (x +:+ m)). cbn [tail_run].
  rewrite IH, !length_app_string.
  destruct (p a); [| done]. cbn [andb].
  destruct (Nat.eqb_spec (String.length (tail_run p x)) (String.length x)) as [Heq | Hne].
  - replace (String.length (tail_run p x) + String.length m
             =? String.length x + String.length m)%nat with true
      by (symmetry; apply Nat.eqb_eq; lia).
    done.
  - replace (String.length (tail_run p x) + String.length m
             =? String.length x + String.length m)%nat with false
      by (symmetry; apply Nat.eqb_neq; lia).
    done.
Qed.

Lemma tail_run_stop p x c m :
  p c = false → tail_run p (x +:+ String c m) = tail_run p m.
Proof.
  intros Hc. induction x as [|a x IH].
  - change (tail_run p (String c m) = tail_run p m). cbn [tail_run]. by rewrite Hc.
  - change (String a x +:+ String c m) with (String a (x +:+ String c m)).
    cbn [tail_run]. rewrite IH.
    replace (String.length (tail_run p m) =? String.length (x +:+ String c m))%nat
      with false; [by rewrite andb_false_r |].
    symmetry. apply Nat.eqb_neq. rewrite length_app_string. cbn [String.length].
    pose proof (tail_run_length p m). lia.
Qed.

Lemma tail_run_tail p a s : tail_run p (String a s) = "" → tail_run p s = "".
Proof. cbn [tail_run]. by destruct (p a && _). Qed.

(** A run of characters of a class is taken whole when what follows it
    does not begin with one of them and the match goes on from there. *)
Lemma repeat_one_char_stuck (p : ascii → bool)
    (once : string → list string →
            (string → list string → option (list string)) →
            option (list string)) :
  (∀ s caps k, once s caps k = match s with
                               | String a s' => if p a then k s' caps else None
                               | EmptyString => None
                               end) →
  ∀ fuel rest caps k,
    match rest with String c _ => p c = false | EmptyString => True end →
    repeat_re once fuel rest caps k = None.
Proof.
  intros Honce [|fuel] rest caps k Hrest; [done |].
  cbn [repeat_re]. rewrite Honce. destruct rest as [|c rest]; [done |].
  by rewrite Hrest.
Qed.

Lemma repeat_one_char_greedy (p : ascii → bool)
    (once : string → list string →
            (string → list string → option (list string)) →
            option (list string)) :
  (∀ s caps k, once s caps k = match s with
                               | String a s' => if p a then k s' caps else None
                               | EmptyString => None
                               end) →
  ∀ m rest caps k res fuel,
    m ≠ "" → all_chars p m = true →
    match rest with String c _ => p c = false | EmptyString => True end →
    (String.length m ≤ fuel)%nat →
    k rest caps = Some res →
    repeat_re once fuel (m +:+ rest) caps k = Some res.
Proof.
  intros Honce m rest caps k res. induction m as [|a m IH]; [done |].
  intros [|fuel] _ Hall Hrest Hfuel Hk; [cbn [String.length] in Hfuel; lia |].
  cbn [all_chars] in Hall. apply andb_true_iff in Hall as [Hp Hall].
  change (String a m +:+ rest) with (String a (m +:+ rest)).
  cbn [repeat_re]. rewrite Honce, Hp.
  replace (String.length (m +:+ rest) <? String.length (String a (m +:+ rest)))%nat
    with true by (symmetry; apply Nat.ltb_lt; simpl; lia).
  destruct m as [|b m].
  - change ("" +:+ rest) with rest.
    by rewrite (repeat_one_char_stuck p once Honce), Hk.
  - rewrite IH; [done | done | done | done | | done].
    cbn [String.length] in *. lia.
Qed.

(** Where [repoNameRE] matches at the head of a string: an optional
    slash, the name, and nothing or one character and [git]. *)
Lemma match_at_inv s0 caps k res :
  List.length caps = 3%nat → keeps_index 1 k →
  exec_re repoNameRE s0 caps k = Some res →
  ∃ opt m s2, s0 = opt +:+ m +:+ s2 ∧ (opt = "" ∨ opt = "/")
    ∧ m ≠ "" ∧ all_chars name_char m = true
    ∧ (s2 = "" ∨ ∃ a ch, s2 = String a ch +:+ "git" ∧ all_chars high ch = true)
    ∧ res !! 1%nat = Some m.
Proof.
  intros Hlen Hk Hex. unfold repoNameRE in Hex.
  assert (∃ opt s1, s0 = opt +:+ s1 ∧ (opt = "" ∨ opt = "/")
          ∧ exec_re (Concat (Capture 1 (Plus (CharClass (λ a, word_char a || Ascii.eqb a "-"))))
                     (Concat (Quest (Capture 2 (Concat AnyCharNotNL
                           (Concat (Lit "g") (Concat (Lit "i") (Lit "t"))))))
                         EndText)) s1 caps k = Some res) as (opt & s1 & -> & Hopt & Hex').
  { revert Hex. cbn [exec_re]. destruct s0 as [|a s].
    - intros Hex. exists "", "". auto.
    - destruct (Ascii.eqb_spec a "/") as [-> | Hne].
      + destruct (repeat_re _ _ s caps _) as [res'|] eqn:Hex.
        * intros [= <-]. exists "/", s. auto.
        * intros Hex'. exists "", (String "/" s). auto.
      + intros Hex. exists "", (String a s). auto. }
  clear Hex.
  apply capture_plus_inv in Hex' as (m & s2 & -> & Hm & Hall & Hex).
  pose proof (suffix_inv _ _ _ _ Hex) as Hsuffix.
  apply exec_re_keeps with (j := 1%nat) in Hex; [| done | done].
  rewrite list_lookup_insert_eq in Hex by lia.
  exists opt, m, s2. repeat (split; [done |]). split; [| done].
  destruct Hsuffix as [-> | (ch & -> & _ & _ & a & ch' & -> & Hhigh)];
    [by left | right]. by exists a, ch'.
Qed.

Lemma all_chars_app p s t :
  all_chars p (s +:+ t) = all_chars p s && all_chars p t.
Proof.
  induction s as [|a s IH]; [done |].
  change (p a && all_chars p (s +:+ t) = p a && all_chars p s && all_chars p t).
  by rewrite IH, andb_assoc.
Qed.

Lemma string_snoc s : s ≠ "" → ∃ s' b, s = s' +:+ String b "".
Proof.
  induction s as [|a s IH]; [done |]. intros _. destruct s as [|a' s].
  - by exists "", a.
  - destruct IH as (s' & b & ->); [done |]. by exists (String a s'), b.
Qed.

Lemma name_determined q name opt m s2 :
  tail_run name_char q = "" → name ≠ "" → all_chars name_char name = true →
  opt = "" ∨ opt = "/" → all_chars name_char m = true →
  s2 = "" ∨ (∃ a ch, s2 = String a ch +:+ "git" ∧ all_chars high ch = true) →
  q +:+ name +:+ ".git" = opt +:+ m +:+ s2 → m = name.
Proof.
  intros Hq Hname Hall Hopt Hm Hs2 Heq.
  assert (tail_run name_char opt = "") as Hto by (by destruct Hopt as [-> | ->]).
  destruct Hs2 as [-> | (a & ch & -> & Hhigh)].
  - rewrite append_nil_r in Heq.
    pose proof (f_equal (tail_run name_char) Heq) as Ht.
    rewrite (tail_run_app _ opt m Hm), Hto in Ht.
    rewrite <- append_assoc in Ht.
    change ".git" with (String "." "git") in Ht.
    rewrite tail_run_stop in Ht by done.
    change ("git" = m) in Ht. subst m.
    change ".git" with ("." +:+ "git") in Heq.
    rewrite <- !append_assoc in Heq.
    apply append_inj_r in Heq as [Heq _]; [| done].
    apply (f_equal String.length) in Heq. rewrite !length_app_string in Heq.
    destruct name; [done |]. destruct Hopt as [-> | ->]; simpl in Heq; lia.
  - change ".git" with ("." +:+ "git") in Heq.
    rewrite <- !append_assoc in Heq.
    apply append_inj_r in Heq as [Heq _]; [| done].
    destruct ch as [|c ch].
    + change (String a "") with ("" +:+ String a "") in Heq.
      rewrite <- (append_assoc (opt +:+ m) "" (String a "")), append_nil_r in Heq.
      apply append_inj_r in Heq as [Heq _]; [| done].
      apply (f_equal (tail_run name_char)) in Heq.
      by rewrite !tail_run_app, Hq, Hto in Heq by done.
    + exfalso. destruct (string_snoc (String c ch)) as (ch' & b & Hch); [done |].
      rewrite Hch, all_chars_app in Hhigh.
      apply andb_true_iff in Hhigh as [_ Hb]. cbn [all_chars] in Hb.
      rewrite andb_true_r in Hb.
      change (String a (String c ch)) with (String a "" +:+ String c ch) in Heq.
      rewrite Hch, <- !append_assoc in Heq.
      apply append_inj_r in Heq as [_ [= <-]]; [| done]. done.
Qed.

Lemma match_at_name name caps k :
  name ≠ "" → all_chars name_char name = true →
  (∀ caps', is_Some (k "" caps')) →
  is_Some (exec_re repoNameRE (name +:+ ".git") caps k).
Proof.
  intros Hname Hall Hk. unfold repoNameRE.
  set (rest := Concat (Capture 1 _) _).
  change (is_Some (match exec_re (Lit "/") (name +:+ ".git") caps
                           (λ s' caps', exec_re rest s' caps' k) with
                   | Some res => Some res
                   | None => exec_re rest (name +:+ ".git") caps k
                   end)).
  destruct (exec_re (Lit "/") _ _ _); [done |].
  subst rest.
  change (is_Some (repeat_re (exec_re (CharClass name_char))
            (S (String.length (name +:+ ".git"))) (name +:+ ".git") caps
            (λ s' caps',
               exec_re (Concat (Quest (Capture 2 (Concat AnyCharNotNL
                           (Concat (Lit "g") (Concat (Lit "i") (Lit "t"))))))
                         EndText) s'
                 (<[1%nat := consumed (name +:+ ".git") s']> caps') k))).
  destruct (Hk (<[2%nat := ".git"]> (<[1%nat := consumed (name +:+ ".git") ".git"]> caps)))
    as [res Hres].
  rewrite (repeat_one_char_greedy name_char _ (λ _ _ _, eq_refl) name ".git" caps _ res);
    try done.
  - rewrite length_app_string. lia.
  - revert Hres.
    generalize (<[1%nat := consumed (name +:+ ".git") ".git"]> caps).
    intros caps1 Hres. cbn [exec_re]. simpl.
    change (consumed ".git" "") with ".git". by rewrite Hres.
Qed.

Lemma find_from_0 r groups s :
  find_from r groups 0 s
  = match exec_re r s (replicate (S groups) EmptyString)
            (λ s' caps, Some (<[O := consumed s s']> caps)) with
    | Some caps => caps
    | None => match s with
              | String _ s' =>
                  find_from r groups (pred (DecodeRuneInString s).2) s'
              | EmptyString => []
              end
    end.
Proof. by destruct s. Qed.

Lemma find_from_dot_git pre name :
  name ≠ "" → all_chars name_char name = true →
  ∀ inside,
    tail_run name_char pre = "" →
    (∃ ch rest, pre +:+ name +:+ ".git" = ch +:+ rest
                ∧ String.length ch = inside ∧ all_chars high ch = true) →
    find_from repoNameRE 2 inside (pre +:+ name +:+ ".git") !! 1%nat = Some name.
Proof.
  intros Hname Hall.
  assert (∀ q res,
            tail_run name_char q = "" →
            exec_re repoNameRE (q +:+ name +:+ ".git") (replicate 3 EmptyString)
              (λ s' caps, Some (<[O := consumed (q +:+ name +:+ ".git") s']> caps))
            = Some res →
            res !! 1%nat = Some name) as Hat.
  { intros q res Hq Hres.
    apply match_at_inv in Hres as (opt & m & s2 & Heq & Hopt & _ & Hm & Hs2 & ->);
      [| done |].
    - f_equal. by apply (name_determined q name opt m s2).
    - intros s' caps' res' [= <-]. by apply list_lookup_insert_ne. }
  induction pre as [|c pre IH]; intros inside Hpre (ch & rest & Heq & Hlen & Hhigh).
  - change ("" +:+ name +:+ ".git") with (name +:+ ".git") in *.
    destruct inside as [|inside].
    + rewrite find_from_0.
      destruct (match_at_name name (replicate 3 EmptyString)
                  (λ s' caps, Some (<[O := consumed (name +:+ ".git") s']> caps))
                  Hname Hall) as [res Hres]; [done |].
      rewrite Hres. by apply (Hat "").
    + exfalso. destruct ch as [|h ch]; [done |]. destruct name as [|n name]; [done |].
      injection Heq as -> _. cbn [all_chars] in Hall, Hhigh.
      apply andb_true_iff in Hall as [Hn _]. apply andb_true_iff in Hhigh as [Hh _].
      apply name_char_not_high in Hn. congruence.
  - change (String c pre +:+ name +:+ ".git")
      with (String c (pre +:+ name +:+ ".git")) in *.
    pose proof (tail_run_tail _ _ _ Hpre) as Hpre'.
    destruct inside as [|inside]; [rewrite find_from_0 | cbn [find_from]].
    + destruct (exec_re _ _ _ _) as [res|] eqn:Hres.
      * by apply (Hat (String c pre)).
      * apply IH; [done |].
        destruct (DecodeRuneInString_split (String c (pre +:+ name +:+ ".git")))
          as (a & ch' & rest' & [= <- Heq'] & -> & _ & Hhigh'); [done |].
        by exists ch', rest'.
    + apply IH; [done |]. destruct ch as [|h ch]; [done |].
      injection Heq as _ Heq. injection Hlen as Hlen.
      cbn [all_chars] in Hhigh. apply andb_true_iff in Hhigh as [_ Hhigh].
      by exists ch, rest.
Qed.

Lemma FindStringSubmatch_dot_git pre name :
  name ≠ "" → all_chars name_char name = true → tail_run name_char pre = "" →
  FindStringSubmatch repoNameRE 2 (pre +:+ name +:+ ".git") !! 1%nat = Some name.
Proof.
  intros Hname Hall Hpre. apply find_from_dot_git; [done | done | done |].
  by exists "", (pre +:+ name +:+ ".git").
Qed.

Lemma getRepoName_dot_git pre name :
  name ≠ "" → all_chars name_char name = true → tail_run name_char pre = "" →
  getRepoName (pre +:+ name +:+ ".git") = Ok name.
Proof.
  intros Hname Hall Hpre.
  pose proof (FindStringSubmatch_dot_git pre name Hname Hall Hpre) as Hl.
  unfold getRepoName. cbn zeta.
  destruct (FindStringSubmatch_length repoNameRE 2 (pre +:+ name +:+ ".git"))
    as [Hnil | Hlen].
  - by rewrite Hnil in Hl.
  - rewrite Hlen. simpl. by rewrite nth_lookup, Hl.
Qed.

(** X11.  A URL that ends in a name of letters, digits, [_] and [-]
    followed by [.git], the name standing at the head of the URL or behind a
    character that is none of these, is parsed to that name. *)
Theorem getRepoName_complete pre name :
  name ≠ "" → all_chars name_char name = true → tail_run name_char pre = "" →
  getRepoName (pre +:+ name +:+ ".git") = Ok name.
Proof. apply getRepoName_dot_git. Qed.

End roundtrip.

Section facts.
Context `{System}.

Lemma cmd_git_cmd g args : cmd g args = command_Run (git_cmd g args).
Proof. reflexivity. Qed.

Lemma command_Run_run c w :
  command_Run c w =
    let '(out, err, fs) := subprocess c (files w) in
    (match err with Some e => Err e | None => Ok tt end,
     {| files := fs; spawned := spawned w ++ [c] |}).
Proof.
  unfold command_Run, mbind, IO_bind, start, mret, IO_ret.
  destruct (subprocess c (files w)) as [[out [e|]] fs]; done.
Qed.

(** X12.  [Get] starts its three git commands in turn (the clone from the
    local mirror, the checkout of the channel, the lookup of the revision),
    stops at the first that fails and returns its error, and does nothing
    else to the world: what the commands before a failure created is left
    in place.  When all three succeed it returns the directory of the clone
    and the trimmed output of the last one. *)
Theorem Get_runs_in_turn g channel now w :
  let dir := Join [workdir g; cloneName g channel now] in
  let run := run_in_turn (checkout_cmds g channel dir) "" w in
  (Get g channel now w).2 = run.2
  ∧ (Get g channel now w).1 =
      match run.1.1 with
      | Some e => Err e
      | None => Ok {| Version := TrimSpace run.1.2; Path := dir |}
      end.
Proof.
  cbn zeta. unfold Get, localClone, currentRevision, Output, checkout_cmds.
  rewrite !cmd_git_cmd. unfold mbind, IO_bind, mret, IO_ret.
  cbn [run_in_turn]. rewrite command_Run_run.
  destruct (subprocess _ (files w)) as [[out1 [e1|]] fs1]; [done |].
  rewrite command_Run_run. cbn [files spawned].
  destruct (subprocess _ fs1) as [[out2 [e2|]] fs2]; [done |].
  unfold start. cbn [files spawned].
  destruct (subprocess _ fs2) as [[out3 [e3|]] fs3]; done.
Qed.

(** X13.  [NewGit] does not act on the world, also when it succeeds, and
    the source it returns carries the URL and the key file it was given, the
    absolute form of the working directory, the name parsed from the URL,
    which is a non-empty string of letters, digits, [_] and [-], and as
    mirror directory that name joined to the working directory. *)
Theorem NewGit_result workdir url key w g w' :
  NewGit workdir url key w = (Ok g, w') →
  w' = w
  ∧ repositoryURL g = url ∧ sshPrivateKeyFile g = key
  ∧ filepath_Abs workdir = Ok (channel.workdir g)
  ∧ getRepoName url = Ok (repoName g)
  ∧ repoName g ≠ "" ∧ all_chars name_char (repoName g) = true
  ∧ repoDir g = Join [channel.workdir g; repoName g].
Proof.
  unfold NewGit, mbind, IO_bind, pure, mret, IO_ret.
  destruct (filepath_Abs workdir) as [abs | e]; [| done].
  destruct (getRepoName url) as [name | e] eqn:Hname; [| done].
  intros [= <- <-]. simpl.
  destruct (getRepoName_inv _ _ Hname) as (Hne & Hall & _). done.
Qed.

(** X14.  [NewGit] accepts a URL that ends in a name of letters, digits,
    [_] and [-] followed by [.git], the name standing at the head of the URL
    or behind a character that is none of these, whenever the working
    directory can be made absolute: it returns the source with that name
    and the mirror directory of that name, and leaves the world as it is. *)
Theorem NewGit_accepts workdir pre name key w abs :
  name ≠ "" → all_chars name_char name = true → tail_run name_char pre = "" →
  filepath_Abs workdir = Ok abs →
  NewGit workdir (pre +:+ name +:+ ".git") key w
  = (Ok {| channel.workdir := abs;
           repoName := name;
           repositoryURL := pre +:+ name +:+ ".git";
           repoDir := Join [abs; name];
           sshPrivateKeyFile := key |}, w).
Proof.
  intros Hname Hall Hpre Habs.
  unfold NewGit, mbind, IO_bind, pure, mret, IO_ret.
  by rewrite Habs, (getRepoName_dot_git pre name Hname Hall Hpre).
Qed.

(** *** Absolute paths *)

Lemma IsAbs_slash s : IsAbs (String "/" s) = true.
Proof. by destruct s. Qed.

Lemma IsAbs_Clean p : IsAbs p = true → IsAbs (Clean p) = true.
Proof. unfold Clean. intros ->. apply IsAbs_slash. Qed.

Lemma IsAbs_inv p : IsAbs p = true → ∃ s, p = String "/" s.
Proof.
  destruct p as [|c p]; [done |]. unfold IsAbs. cbn [String.prefix].
  destruct (ascii_dec "/" c) as [<- |]; [| done]. by exists p.
Qed.

Lemma IsAbs_Join a b : IsAbs a = true → IsAbs (Join [a; b]) = true.
Proof.
  intros (s & ->)%IsAbs_inv. apply IsAbs_Clean.
  cbn [String.concat]. apply IsAbs_slash.
Qed.

(** X15.  On a system whose [os.Getwd] gives a rooted path, the working
    directory and the mirror directory of a source made by [NewGit] are
    absolute paths, and so is the path of every snapshot that [Get] returns
    for it. *)
Theorem paths_are_absolute workdir url key w g w' :
  (∀ wd, Getwd = Ok wd → IsAbs wd = true) →
  NewGit workdir url key w = (Ok g, w') →
  IsAbs (channel.workdir g) = true ∧ IsAbs (repoDir g) = true
  ∧ ∀ channel now w1 config w1',
      Get g channel now w1 = (Ok config, w1') → IsAbs (Path config) = true.
Proof.
  intros Hwd. unfold NewGit, mbind, IO_bind, pure, mret, IO_ret.
  destruct (filepath_Abs workdir) as [abs | e] eqn:Habs; [| done].
  destruct (getRepoName url) as [name | e]; [| done].
  intros [= <- <-]. simpl.
  assert (IsAbs abs = true) as Ha.
  { unfold filepath_Abs in Habs. destruct (IsAbs workdir) eqn:Hw.
    - injection Habs as <-. by apply IsAbs_Clean.
    - destruct Getwd as [wd | e] eqn:Hgetwd; [| done].
      injection Habs as <-. apply IsAbs_Join. by apply Hwd. }
  split; [done |]. split; [by apply IsAbs_Join |].
  intros channel now w1 config w1' Hget%Get_Path. rewrite Hget.
  by apply IsAbs_Join.
Qed.

(** *** The directory of a checkout *)

Lemma split_slash_sep s t :
  split_slash (s +:+ String "/" t) = split_slash s ++ split_slash t.
Proof.
  induction s as [|a s IH]; [done |].
  change (split_slash (String a (s +:+ String "/" t))
          = split_slash (String a s) ++ split_slash t).
  cbn [split_slash]. rewrite IH. destruct (Ascii.eqb a "/"); [done |].
  destruct (split_slash_last s) as (els & -> & _). by destruct els.
Qed.

Lemma split_slash_free s : occurs "/" s = false → split_slash s = [s].
Proof.
  intros Hs. destruct (split_slash_last s) as (els & -> & Hels).
  rewrite (proj2 Hels Hs). by rewrite after_last_free.
Qed.

Lemma Clean_rooted p :
  IsAbs p = true →
  Clean p = String "/" (String.concat "/" (rev (clean_elems true [] (split_slash p)))).
Proof. unfold Clean. by intros ->. Qed.

Lemma Join_child dir name :
  IsAbs dir = true → occurs "/" name = false → plain name →
  Join [dir; name] = Clean dir +:+ "/" +:+ name
  ∨ (Clean dir = "/" ∧ Join [dir; name] = "/" +:+ name).
Proof.
  intros Hdir Hfree Hplain.
  assert (Join [dir; name] = Clean (dir +:+ String "/" name)) as ->.
  { destruct (IsAbs_inv _ Hdir) as (d & ->). reflexivity. }
  assert (IsAbs (dir +:+ String "/" name) = true) as Hjoined.
  { destruct (IsAbs_inv _ Hdir) as (d & ->). apply IsAbs_slash. }
  rewrite (Clean_rooted _ Hjoined), (Clean_rooted _ Hdir).
  rewrite split_slash_sep, (split_slash_free name) by done.
  rewrite clean_elems_snoc by done. cbn [rev].
  rewrite concat_snoc.
  destruct (rev (clean_elems true [] (split_slash dir))) as [|x l].
  - right. by split.
  - left. change (String "/" ((String.concat "/" (x :: l) +:+ "/" +:+ name))
                  = String "/" (String.concat "/" (x :: l) +:+ "/" +:+ name)).
    reflexivity.
Qed.

(** X16.  For a source whose working directory is absolute and whose
    repository name has no slash, and a channel name without a slash, the
    snapshot that [Get] returns lies directly in the working directory, under
    the name [repoName_channel_nanoseconds]. *)
Theorem snapshot_in_workdir g channel now w config w' :
  IsAbs (workdir g) = true →
  occurs "/" (repoName g) = false → occurs "/" channel = false →
  Get g channel now w = (Ok config, w') →
  Path config = Clean (workdir g) +:+ "/" +:+ cloneName g channel now
  ∨ (Clean (workdir g) = "/" ∧ Path config = "/" +:+ cloneName g channel now).
Proof.
  intros Hdir Hrepo Hchannel Hget%Get_Path. rewrite Hget.
  assert (occurs "_" (cloneName g channel now) = true) as Hus.
  { unfold cloneName. rewrite occurs_app.
    change ("_" +:+ channel +:+ "_" +:+ Sprintd now)
      with (String "_" (channel +:+ "_" +:+ Sprintd now)).
    cbn [occurs]. rewrite Ascii.eqb_refl. by rewrite orb_true_r. }
  apply Join_child; [done | |].
  - unfold cloneName. rewrite !occurs_app, Hrepo, Hchannel.
    by rewrite occurs_Sprintd.
  - repeat split; intros Heq; rewrite Heq in Hus; discriminate Hus.
Qed.

End facts.

Section update.
Context `{System} `{Stat}.

(** X17.  [Update] looks for the mirror directory first.  When it is
    there, it only fetches; when [os.Stat] says that it does not exist, it
    clones the mirror and then fetches, and a failed clone ends the call;
    on any other error of [os.Stat] it returns that error, starts no
    subprocess and leaves the world as it was. *)
Theorem Update_runs_in_turn g w :
  match os_Stat (repoDir g) (files w) with
  | None => Update g w = outcome (run_in_turn [mirror_fetch g] "" w)
  | Some err =>
      if os_IsNotExist err
      then Update g w
           = outcome (run_in_turn [mirror_clone g; mirror_fetch g] "" w)
      else Update g w = (Err err, w)
  end.
Proof.
  unfold Update, stat, outcome, mirror_clone, mirror_fetch.
  rewrite !cmd_git_cmd. unfold mbind, IO_bind, mret, IO_ret, pure.
  cbn [run_in_turn].
  destruct (os_Stat (repoDir g) (files w)) as [err|].
  - destruct (os_IsNotExist err); [| done]. cbn [negb].
    rewrite command_Run_run.
    destruct (subprocess _ (files w)) as [[out1 [e1|]] fs1]; [done |].
    rewrite command_Run_run. cbn [files spawned].
    by destruct (subprocess _ fs1) as [[out2 [e2|]] fs2].
  - rewrite command_Run_run.
    by destruct (subprocess _ (files w)) as [[out1 [e1|]] fs1].
Qed.

End update.

(** *** The properties on a concrete system *)

Section examples.
Import Examples.
#[local] Existing Instance git_ok.

Lemma getRepoName_sound_witness :
  let eacute := String "195" (String "169" "") in
  getRepoName ("https://github.com/foo/conf" +:+ eacute +:+ "git") = Ok "conf"
  ∧ all_chars name_char "conf" = true.
Proof.
  intros eacute.
  assert (getRepoName ("https://github.com/foo/conf" +:+ eacute +:+ "git")
          = Ok "conf") as Hname by (vm_compute; reflexivity).
  split; [exact Hname |].
  exact (proj1 (proj2 (getRepoName_sound _ _ Hname))).
Defined.

Lemma getRepoName_complete_witness :
  tail_run name_char "git@github.com:foo/" = ""
  ∧ getRepoName ("git@github.com:foo/" +:+ "conf" +:+ ".git") = Ok "conf".
Proof.
  split; [vm_compute; reflexivity |].
  apply getRepoName_complete; [done | vm_compute; reflexivity ..].
Defined.

Lemma NewGit_result_witness :
  NewGit "work" "https://github.com/foo/conf.git" "" mirrored
  = (Ok config_source, mirrored)
  ∧ repoDir config_source = Join [workdir config_source; repoName config_source].
Proof.
  assert (NewGit "work" "https://github.com/foo/conf.git" "" mirrored
          = (Ok config_source, mirrored)) as Hnew by (vm_compute; reflexivity).
  split; [exact Hnew |].
  destruct (NewGit_result _ _ _ _ _ _ Hnew) as (_ & _ & _ & _ & _ & _ & _ & Hdir).
  exact Hdir.
Defined.

Lemma NewGit_accepts_witness :
  filepath_Abs "work" = Ok "/home/clm/work"
  ∧ NewGit "work" ("https://github.com/foo/" +:+ "conf" +:+ ".git") "" mirrored
    = (Ok config_source, mirrored).
Proof.
  assert (filepath_Abs "work" = Ok "/home/clm/work") as Habs
    by (vm_compute; reflexivity).
  split; [exact Habs |].
  apply (NewGit_accepts "work" "https://github.com/foo/" "conf" "" mirrored
           "/home/clm/work"); [done | vm_compute; reflexivity .. | exact Habs].
Defined.

Lemma paths_are_absolute_witness :
  NewGit "work" "https://github.com/foo/conf.git" "" mirrored
  = (Ok config_source, mirrored)
  ∧ IsAbs (workdir config_source) = true ∧ IsAbs (repoDir config_source) = true.
Proof.
  assert (NewGit "work" "https://github.com/foo/conf.git" "" mirrored
          = (Ok config_source, mirrored)) as Hnew by (vm_compute; reflexivity).
  split; [exact Hnew |].
  destruct (paths_are_absolute "work" "https://github.com/foo/conf.git" ""
              mirrored config_source mirrored) as (Hwork & Hdir & _).
  - intros wd Hwd. vm_compute in Hwd. by injection Hwd as <-.
  - exact Hnew.
  - by split.
Defined.

Lemma snapshot_in_workdir_witness :
  let got := Get config_source "stable" 1500000000000000000 mirrored in
  got.1 = Ok snapshot
  ∧ Path snapshot
    = Clean (workdir config_source) +:+ "/"
      +:+ cloneName config_source "stable" 1500000000000000000.
Proof.
  intros got.
  assert (got = (Ok snapshot, got.2)) as Hgot by (vm_compute; reflexivity).
  split; [by rewrite Hgot |].
  destruct (snapshot_in_workdir config_source "stable" 1500000000000000000
              mirrored snapshot got.2) as [Hpath | [Hroot _]].
  - vm_compute. reflexivity.
  - vm_compute. reflexivity.
  - vm_compute. reflexivity.
  - exact Hgot.
  - exact Hpath.
  - vm_compute in Hroot. discriminate Hroot.
Defined.

End examples.
End GitMore.
